(** * igl::EmbreeIntersector: the ray queries of include/igl/embree/EmbreeIntersector.h

    A shallow embedding of the three query methods of the class
    ([intersectRay] in its single-hit and its multi-hit overload, and
    [intersectSegment]) and the properties of the multi-hit traversal loop.

    Numbers are the IEEE-754 values the C++ code computes with: [float] is
    binary32, [double] is binary64, both carried by [spec_float] with the
    operations of [SpecFloat] at the matching precision (round to nearest,
    ties to even). *)

From Stdlib Require Import ZArith NArith List Bool Lia String Sorted.
From Stdlib Require Import SpecFloat.
Import ListNotations.
Open Scope Z_scope.

(** ** IEEE-754 numbers *)

Definition float := spec_float.
Definition double := spec_float.

Module Float.
Definition prec := 24.
Definition emax := 128.
Definition of_Z (z : Z) : float := binary_normalize prec emax z 0 false.
Definition div : float -> float -> float := SFdiv prec emax.
Definition ltb : float -> float -> bool := SFltb.
Definition leb : float -> float -> bool := SFleb.
Definition valid : float -> bool := valid_binary prec emax.
End Float.

Module Double.
Definition prec := 53.
Definition emax := 1024.
Definition of_Z (z : Z) : double := binary_normalize prec emax z 0 false.
Definition add : double -> double -> double := SFadd prec emax.
Definition mul : double -> double -> double := SFmul prec emax.
Definition ltb : double -> double -> bool := SFltb.
Definition leb : double -> double -> bool := SFleb.
Definition valid : double -> bool := valid_binary prec emax.
End Double.

(** The implicit promotion of a [float] to [double] (exact). *)
Definition float_to_double (x : float) : double :=
  match x with
  | S754_finite s m e =>
      binary_normalize Double.prec Double.emax (cond_Zopp s (Zpos m)) e s
  | _ => x
  end.

(** The narrowing conversion [(float)x] of a [double] (rounds to nearest,
    overflows to an infinity). *)
Definition double_to_float (x : double) : float :=
  match x with
  | S754_finite s m e =>
      binary_normalize Float.prec Float.emax (cond_Zopp s (Zpos m)) e s
  | _ => x
  end.

(** [pow(2.0, n)] for a count [n]: the double 2^n, with mantissa 2^52 up to
    n = 1023 and the overflow value +infinity from n = 1024 on. *)
Definition pow2 (n : N) : double :=
  if (Z.of_N n <=? 1023)
  then S754_finite false (2 ^ 52) (Z.of_N n - 52)
  else S754_infinity false.

(** ** The order of IEEE-754 numbers *)

(** The place of a number in the order of [SFcompare]: its class, from
    -infinity (-2) to +infinity (2), then exponent and mantissa, both
    negated below zero.  NaN has no place. *)
Definition key (x : spec_float) : option (Z * Z * Z) :=
  match x with
  | S754_nan => None
  | S754_infinity true => Some (-2, 0, 0)
  | S754_finite true m e => Some (-1, - e, - Zpos m)
  | S754_zero _ => Some (0, 0, 0)
  | S754_finite false m e => Some (1, e, Zpos m)
  | S754_infinity false => Some (2, 0, 0)
  end.

Definition key_le (a b : Z * Z * Z) : Prop :=
  let '(a1, a2, a3) := a in
  let '(b1, b2, b3) := b in
  a1 < b1 \/ (a1 = b1 /\ (a2 < b2 \/ (a2 = b2 /\ a3 <= b3))).

Definition key_lt (a b : Z * Z * Z) : Prop :=
  let '(a1, a2, a3) := a in
  let '(b1, b2, b3) := b in
  a1 < b1 \/ (a1 = b1 /\ (a2 < b2 \/ (a2 = b2 /\ a3 < b3))).

(** [0 <= x] *)
Definition nonneg (x : spec_float) : Prop := SFleb (S754_zero false) x = true.

(** [x] is a zero, a finite number or an infinity of sign [s]. *)
Inductive signed (s : bool) : spec_float -> Prop :=
| signed_zero : signed s (S754_zero s)
| signed_infinity : signed s (S754_infinity s)
| signed_finite m e : signed s (S754_finite s m e).

(** [x] is +infinity or NaN: no number lies at or beyond it. *)
Definition escaped (x : spec_float) : bool :=
  match x with
  | S754_nan | S754_infinity false => true
  | _ => false
  end.

(** ** The embree types the class uses (common/ray.h, common/hit.h) *)

Module embree.

Definition zero : spec_float := S754_zero false.
Definition one : float := Float.of_Z 1.
Definition inf : float := S754_infinity false.

Record Vec3f := { x : float; y : float; z : float }.

(** [Ray(org, dir, near = zero, far = inf)]; the reciprocal direction the
    constructor also stores is a function of [dir]. *)
Record Ray := { org : Vec3f; dir : Vec3f; near : float; far : float }.

Record Hit := { t : float; u : float; v : float; id0 : Z; id1 : Z }.

End embree.

(** A point or vector argument of the class ([RowVector3]), indexed
    [p[0]], [p[1]], [p[2]]. *)
Record RowVector3 := { p0 : double; p1 : double; p2 : double }.

Definition toVec3f (p : RowVector3) : embree.Vec3f :=
  {| embree.x := double_to_float (p0 p);
     embree.y := double_to_float (p1 p);
     embree.z := double_to_float (p2 p) |}.

(** The literal [1e-4f]. *)
Definition f_1e_4 : float := Float.div (Float.of_Z 1) (Float.of_Z 10000).

(** What the traversal writes to [std::cerr], token by token (the digits
    that [cerr.precision] asks for are left to the reader of a [Flt]). *)
Inductive cerr_item :=
| Str (s : string)
| Int (n : Z)
| Flt (x : float)
| Endl.

Definition warning_text (hits : list embree.Hit) : list cerr_item :=
  [Str "Warning: Large number of hits..."; Endl; Str "[ "]
  ++ flat_map (fun hit => [Int (embree.id0 hit + 1); Str " "]) hits
  ++ [Str "[ "]
  ++ flat_map (fun hit => [Flt (embree.t hit); Endl]) hits
  ++ [Str "]"; Endl].

(** The variables of the multi-hit [intersectRay] that live across loop
    iterations, with its two output parameters [hits] and [num_rays] and
    the text sent to [std::cerr].

    [num_rays] and [last_id0] are [int]s, kept as integers: the ids are
    copied and compared only, and the count of rays stays far below 2^31
    when the primitive keeps to the interval of the ray (see [max_rays]).

    [self_hits] is declared [double] but only ever holds a count (set to 0,
    then [self_hits++]) whose single use is [pow(2.0,self_hits)]; it is kept
    as that count.  A double holds every count below 2^53 exactly, and the
    power is +infinity from 1024 on, so the count decides [t_push] as the
    double does.

    [sanity] is not a variable of the source: it records whether every
    [assert] evaluated so far held.  The transitions are those of a build
    with NDEBUG, where [assert] expands to nothing; a build without it
    aborts where [sanity] turns false. *)
Record State := {
  hits : list embree.Hit;
  num_rays : Z;
  last_id0 : Z;
  self_hits : N;
  min_t : double;
  large_hits_warned : bool;
  cerr : list cerr_item;
  sanity : bool
}.

(** How one pass through the body of [while(true)] ends: at the closing
    brace ([Continue]), or by leaving the function with the value of
    [hits.empty()] ([Return], reached through [break] or through the
    [return] of the large-hit warning). *)
Inductive outcome :=
| Continue (st : State)
| Return (result : bool) (st : State).

Definition state_of (r : outcome) : State :=
  match r with Continue st => st | Return _ st => st end.

Definition empty {A} (l : list A) : bool :=
  match l with [] => true | _ => false end.

Section EmbreeIntersector.

(** [_intersector->intersect(ray, hit)] on the acceleration structure the
    constructor built: the nearest front-facing hit of [ray], [None]
    standing for a [hit] that converts to [false]. *)
Variable intersect : embree.Ray -> option embree.Hit.

(** The constant [FLOAT_EPS] of igl/EPS.h. *)
Variable FLOAT_EPS : float.

(** [bool intersectRay(origin, direction, hit)]: the returned option is
    the boolean result together with the output parameter [hit]. *)
Definition intersectRay (origin direction : RowVector3) : option embree.Hit :=
  let ray := {| embree.org := toVec3f origin; embree.dir := toVec3f direction;
                embree.near := f_1e_4; embree.far := embree.inf |} in
  intersect ray.

(** [bool intersectSegment(a, ab, hit)] *)
Definition intersectSegment (a ab : RowVector3) : option embree.Hit :=
  let ray := {| embree.org := toVec3f a; embree.dir := toVec3f ab;
                embree.near := embree.zero; embree.far := embree.one |} in
  intersect ray.

Definition eps : double := float_to_double FLOAT_EPS.

(** The state on entry to [while(true)] of the multi-hit [intersectRay]. *)
Definition init : State :=
  {| hits := []; num_rays := 0; last_id0 := -1; self_hits := 0%N;
     min_t := embree.zero; large_hits_warned := false; cerr := [];
     sanity := true |}.

(** The test of [if(hit.id0 == last_id0 || hit.t <= min_t)]. *)
Definition self_hit (st : State) (hit : embree.Hit) : bool :=
  (embree.id0 hit =? last_id0 st)
  || Double.leb (float_to_double (embree.t hit)) (min_t st).

(** [double t_push = pow(2.0,self_hits)*eps] *)
Definition t_push (st : State) : double :=
  Double.mul (pow2 (self_hits st)) eps.

(** The branch "Hit self again, progressively advance". *)
Definition advance (st : State) (hit : embree.Hit) : State :=
  {| hits := hits st;
     num_rays := num_rays st;
     last_id0 := last_id0 st;
     self_hits := (self_hits st + 1)%N;
     min_t := Double.add (min_t st) (t_push st);
     large_hits_warned := large_hits_warned st;
     cerr := cerr st;
     sanity := sanity st && Float.ltb (embree.t hit) embree.one |}.

(** The [else] branch: [hits.push_back(hit); min_t = hit.t; self_hits = 0]. *)
Definition record (st : State) (hit : embree.Hit) : State :=
  {| hits := hits st ++ [hit];
     num_rays := num_rays st;
     last_id0 := last_id0 st;
     self_hits := 0%N;
     min_t := float_to_double (embree.t hit);
     large_hits_warned := large_hits_warned st;
     cerr := cerr st;
     sanity := sanity st |}.

Definition set_last_id0 (st : State) (id : Z) : State :=
  {| hits := hits st; num_rays := num_rays st; last_id0 := id;
     self_hits := self_hits st; min_t := min_t st;
     large_hits_warned := large_hits_warned st; cerr := cerr st;
     sanity := sanity st |}.

Definition incr_num_rays (st : State) : State :=
  {| hits := hits st; num_rays := num_rays st + 1; last_id0 := last_id0 st;
     self_hits := self_hits st; min_t := min_t st;
     large_hits_warned := large_hits_warned st; cerr := cerr st;
     sanity := sanity st |}.

(** The block of [if(hits.size()>1000 && !large_hits_warned)] up to its
    [return]. *)
Definition warn (st : State) : State :=
  {| hits := hits st; num_rays := num_rays st; last_id0 := last_id0 st;
     self_hits := self_hits st; min_t := min_t st;
     large_hits_warned := true;
     cerr := cerr st ++ warning_text (hits st);
     sanity := sanity st |}.

(** The ray of one iteration: [embree::Ray ray(o,d,min_t)]. *)
Definition ray_of (o d : embree.Vec3f) (st : State) : embree.Ray :=
  {| embree.org := o; embree.dir := d;
     embree.near := double_to_float (min_t st); embree.far := embree.inf |}.

(** The state in which a pass that got [hit] reaches the test
  [if(hits.size()>1000 && !large_hits_warned)]. *)
Definition after_hit (st : State) (hit : embree.Hit) : State :=
  set_last_id0
  (if self_hit st hit
   then advance (incr_num_rays st) hit
   else record (incr_num_rays st) hit)
  (embree.id0 hit).

(** One pass through the body of [while(true)]. *)
Definition loop_body (o d : embree.Vec3f) (st : State) : outcome :=
  let ray := ray_of o d st in
  let st := incr_num_rays st in
  match intersect ray with
  | Some hit =>
      let st :=
        if self_hit st hit then advance st hit else record st hit in
      let st := set_last_id0 st (embree.id0 hit) in
      if (1000 <? List.length (hits st))%nat && negb (large_hits_warned st)
      then let st := warn st in Return (empty (hits st)) st
      else Continue st
  | None => Return (empty (hits st)) st
  end.

(** [while(true)], run for at most [fuel] passes. *)
Fixpoint loop (fuel : nat) (o d : embree.Vec3f) (st : State)
  : option (bool * State) :=
  match fuel with
  | O => None
  | S fuel =>
      match loop_body o d st with
      | Continue st => loop fuel o d st
      | Return b st => Some (b, st)
      end
  end.

(** [bool intersectRay(origin, direction, hits, num_rays)]: the result is
    the boolean together with the final state, which holds the output
    parameters [hits] and [num_rays]; [None] when the loop has not left
    the function within [fuel] passes. *)
Definition intersectRay_hits (fuel : nat) (origin direction : RowVector3)
  : option (bool * State) :=
  loop fuel (toVec3f origin) (toVec3f direction) init.

(** The states in which the loop of a traversal along [o], [d] is entered. *)
Inductive reachable (o d : embree.Vec3f) : State -> Prop :=
| reachable_init : reachable o d init
| reachable_continue st st' :
  reachable o d st -> loop_body o d st = Continue st' -> reachable o d st'.

(** [hit] is the answer to some query along [o], [d]. *)
Definition answered (o d : embree.Vec3f) (hit : embree.Hit) : Prop :=
  exists near far,
  intersect {| embree.org := o; embree.dir := d;
               embree.near := near; embree.far := far |} = Some hit.

End EmbreeIntersector.

(** ** Predicates on the state of the loop *)

(** What holds of the state each time the loop is entered: the large-hit
    test has not fired. *)
Definition pending (st : State) : Prop :=
  (List.length (hits st) <= 1000)%nat
  /\ large_hits_warned st = false
  /\ cerr st = [].

(** From the 1025th consecutive self hit on, the bound has left the
    numbers. *)
Definition bounded_self_hits (st : State) : Prop :=
  (1025 <= self_hits st)%N -> escaped (min_t st) = true.

(** A bound on the passes still to come. *)
Definition passes_left (st : State) : nat :=
  (1000 - List.length (hits st)) * 1026 + (1025 - N.to_nat (self_hits st)).

Definition max_rays : nat := 1001 * 1026.

(** [a.t < b.t], the distances compared as the doubles [min_t] is compared
    with. *)
Definition t_lt (a b : embree.Hit) : Prop :=
  Double.ltb (float_to_double (embree.t a)) (float_to_double (embree.t b))
  = true.

(** The bound is a non-negative double, no recorded hit lies beyond it, and
    the recorded hits are in increasing order. *)
Definition ordered (st : State) : Prop :=
  Double.valid (min_t st) = true
  /\ nonneg (min_t st)
  /\ Forall (fun hit =>
               Double.leb (float_to_double (embree.t hit)) (min_t st) = true)
       (hits st)
  /\ StronglySorted t_lt (hits st).

(** ** A nearest-hit primitive over an explicit scene *)

(** [hit.t] lies in the interval [[near, far)] of [ray]. *)
Definition in_interval (ray : embree.Ray) (hit : embree.Hit) : bool :=
  Float.leb (embree.near ray) (embree.t hit)
  && Float.ltb (embree.t hit) (embree.far ray).

(** Modelled from the spec: the nearest-hit primitive, which belongs to
    embree and is not part of the sources, "the single nearest intersection
    with t in [tmin, tmax) among front-facing triangles, or none".
    [scene] lists the front-facing triangles that the line of the ray
    strikes, each as the hit record embree reports for it. *)
Fixpoint nearest (scene : list embree.Hit) (ray : embree.Ray)
  : option embree.Hit :=
  match scene with
  | [] => None
  | hit :: scene =>
      let best := nearest scene ray in
      if in_interval ray hit then
        match best with
        | Some b => if Float.ltb (embree.t b) (embree.t hit) then Some b else Some hit
        | None => Some hit
        end
      else best
  end.

(** Modelled from the spec: the default epsilon base, "a magnitude near
    single-precision float epsilon"; igl/EPS.h, which defines [FLOAT_EPS],
    is not among the sources.  The value is the float 1.0e-7. *)
Definition FLOAT_EPS_default : float :=
  Float.div (Float.of_Z 1) (Float.of_Z 10000000).

(** A triangle struck at parametric distance [t], with barycentric
    coordinates (1/4, 1/4). *)
Definition hit_at (id : Z) (t : float) : embree.Hit :=
  let quarter := Float.div (Float.of_Z 1) (Float.of_Z 4) in
  {| embree.t := t; embree.u := quarter; embree.v := quarter;
     embree.id0 := id; embree.id1 := -1 |}.

(** The scene of the spec's second scenario: three parallel planes seen from
    above, struck at t = 3, 4 and 5. *)
Definition scene_planes : list embree.Hit :=
  [hit_at 4 (Float.of_Z 3); hit_at 2 (Float.of_Z 4); hit_at 0 (Float.of_Z 5)].

(** One triangle just in front of the origin, at t = 2^-30. *)
Definition scene_grazing : list embree.Hit :=
  [hit_at 0 (Float.div (Float.of_Z 1) (Float.of_Z (2 ^ 30)))].

(** One triangle far away, at t = 10^10. *)
Definition scene_far : list embree.Hit :=
  [hit_at 0 (Float.of_Z (10 ^ 10))].

(** No triangle on the line of the ray. *)
Definition scene_empty : list embree.Hit := [].

(** The ray of the spec's scenarios: origin (1/2, 1/2, 5), direction
    (0, 0, -1). *)
Definition origin_above : RowVector3 :=
  let half := SFdiv Double.prec Double.emax (Double.of_Z 1) (Double.of_Z 2) in
  {| p0 := half; p1 := half; p2 := Double.of_Z 5 |}.

Definition direction_down : RowVector3 :=
  {| p0 := embree.zero; p1 := embree.zero; p2 := Double.of_Z (-1) |}.

(** The state of [scene_planes] after the first pass, which records the
    plane at t = 3. *)
Definition planes_after_first_pass : State :=
  state_of (loop_body (nearest scene_planes) FLOAT_EPS_default
              (toVec3f origin_above) (toVec3f direction_down) init).

(** The state of [scene_far] after the first pass, which records the
    triangle at t = 10^10. *)
Definition far_after_first_pass : State :=
  state_of (loop_body (nearest scene_far) FLOAT_EPS_default
              (toVec3f origin_above) (toVec3f direction_down) init).

(** The state in which a traversal ends ([init] when it has not ended). *)
Definition final_state (r : option (bool * State)) : State :=
  match r with Some (_, st) => st | None => init end.

(** The traversal of [scene_planes], which ends after 10 queries. *)
Definition planes_final : State :=
  final_state (intersectRay_hits (nearest scene_planes) FLOAT_EPS_default 10
                 origin_above direction_down).

(** 1002 triangles in a row, triangle [i] struck at t = (i+1)/2048. *)
Definition scene_many : list embree.Hit :=
  map (fun i => hit_at (Z.of_nat i)
                  (Float.div (Float.of_Z (Z.of_nat i + 1)) (Float.of_Z 2048)))
    (seq 0 1002).

Definition many_final : State :=
  final_state (intersectRay_hits (nearest scene_many) FLOAT_EPS_default 3000
                 origin_above direction_down).


(** ** The constructor [EmbreeIntersector(V, F)]

    [PointMatrixType] is taken as a matrix of doubles with three columns and
    [FaceMatrixType] as a matrix of ints with three columns (Eigen's
    [MatrixXd] and [MatrixXi]), each given by its list of rows; the cast
    [(int)F(i,j)] is then the identity.  The row counts stay far below the
    end of [int], in which the loops count. *)

Module rtcore.

(** [embree::BuildVertex(x, y, z)] *)
Record BuildVertex := { x : float; y : float; z : float }.

(** [embree::BuildTriangle(v0, v1, v2, id0)], with the four fields the
    constructor call gives. *)
Record BuildTriangle := { v0 : Z; v1 : Z; v2 : Z; id0 : Z }.

End rtcore.

(** A row of [F]. *)
Record Face := { f0 : Z; f1 : Z; f2 : Z }.

(** A block of [rtcMalloc]: its cells, [None] for a cell never written. *)
Definition block (A : Type) := list (option A).

Definition rtcMalloc {A} (cells : nat) : block A := repeat None cells.

(** [b[i] = x]; [None] when [i] is outside the block. *)
Definition store {A} (b : block A) (i : nat) (x : A) : option (block A) :=
  if (i <? List.length b)%nat
  then Some (firstn i b ++ Some x :: skipn (S i) b)
  else None.

(** [embree::BuildVertex((float)V(i,0),(float)V(i,1),(float)V(i,2))] *)
Definition vertex_of (row : RowVector3) : rtcore.BuildVertex :=
  {| rtcore.x := double_to_float (p0 row);
     rtcore.y := double_to_float (p1 row);
     rtcore.z := double_to_float (p2 row) |}.

(** [embree::BuildTriangle((int)F(i,0),(int)F(i,1),(int)F(i,2),i)] *)
Definition triangle_of (i : nat) (row : Face) : rtcore.BuildTriangle :=
  {| rtcore.v0 := f0 row; rtcore.v1 := f1 row; rtcore.v2 := f2 row;
     rtcore.id0 := Z.of_nat i |}.

(** The loop over the rows of [V], from the rows still to visit:
    [vertices[numVertices++] = ...]. *)
Fixpoint fill_vertices (rows : list RowVector3)
    (vertices : block rtcore.BuildVertex) (numVertices : nat)
  : option (block rtcore.BuildVertex * nat) :=
  match rows with
  | [] => Some (vertices, numVertices)
  | row :: rows =>
      match store vertices numVertices (vertex_of row) with
      | Some vertices => fill_vertices rows vertices (S numVertices)
      | None => None
      end
  end.

(** The loop over the rows of [F], from row [i] on:
    [triangles[numTriangles++] = ...]. *)
Fixpoint fill_triangles (rows : list Face) (i : nat)
    (triangles : block rtcore.BuildTriangle) (numTriangles : nat)
  : option (block rtcore.BuildTriangle * nat) :=
  match rows with
  | [] => Some (triangles, numTriangles)
  | row :: rows =>
      match store triangles numTriangles (triangle_of i row) with
      | Some triangles => fill_triangles rows (S i) triangles (S numTriangles)
      | None => None
      end
  end.

(** What the constructor hands to [embree::rtcCreateAccel]. *)
Record Build := {
  triangles : block rtcore.BuildTriangle;
  numTriangles : nat;
  vertices : block rtcore.BuildVertex;
  numVertices : nat
}.

(** The constructor up to the call of [rtcCreateAccel]; [None] when a store
    falls outside its block. *)
Definition build (V : list RowVector3) (F : list Face) : option Build :=
  let triangles := rtcMalloc (List.length F) in
  let vertices := rtcMalloc (List.length V) in
  match fill_vertices V vertices 0 with
  | None => None
  | Some (vertices, numVertices) =>
      match fill_triangles F 0 triangles 0 with
      | None => None
      | Some (triangles, numTriangles) =>
          Some {| triangles := triangles; numTriangles := numTriangles;
                  vertices := vertices; numVertices := numVertices |}
      end
  end.

(** [embree::rtcCreateAccel("default", "default", triangles, numTriangles,
    vertices, numVertices)] followed by
    [queryInterface<embree::Intersector>()]: the [intersect] of the
    structure built over the two blocks. *)
Definition Accel : Type :=
  block rtcore.BuildTriangle -> nat -> block rtcore.BuildVertex -> nat ->
  embree.Ray -> option embree.Hit.

(** The [_intersector] of an object constructed from [V] and [F]. *)
Definition constructed (rtcCreateAccel : Accel)
    (V : list RowVector3) (F : list Face)
  : option (embree.Ray -> option embree.Hit) :=
  match build V F with
  | Some b =>
      Some (rtcCreateAccel (triangles b) (numTriangles b)
              (vertices b) (numVertices b))
  | None => None
  end.

(** The ids a hit can carry: those of the first [numTriangles] cells. *)
Definition build_id (b : Build) (id : Z) : Prop :=
  exists k triangle,
    (k < numTriangles b)%nat
    /\ nth_error (triangles b) k = Some (Some triangle)
    /\ rtcore.id0 triangle = id.

(** A structure over a stack of triangles, for the scenarios: the triangle
    in cell [k] is struck at t = k + 1, whatever the ray. *)
Definition stack_scene (triangles : block rtcore.BuildTriangle) (n : nat)
  : list embree.Hit :=
  flat_map
    (fun cell : nat * option rtcore.BuildTriangle =>
       match snd cell with
       | Some triangle =>
           [hit_at (rtcore.id0 triangle) (Float.of_Z (Z.of_nat (fst cell) + 1))]
       | None => []
       end)
    (combine (seq 0 n) (firstn n triangles)).

Definition stack_accel : Accel :=
  fun triangles numTriangles _ _ => nearest (stack_scene triangles numTriangles).

(** The unit square of the spec's first scenario: four corners, two
    triangles. *)
Definition square_V : list RowVector3 :=
  [ {| p0 := Double.of_Z 0; p1 := Double.of_Z 0; p2 := Double.of_Z 0 |};
    {| p0 := Double.of_Z 1; p1 := Double.of_Z 0; p2 := Double.of_Z 0 |};
    {| p0 := Double.of_Z 1; p1 := Double.of_Z 1; p2 := Double.of_Z 0 |};
    {| p0 := Double.of_Z 0; p1 := Double.of_Z 1; p2 := Double.of_Z 0 |} ].

Definition square_F : list Face :=
  [ {| f0 := 0; f1 := 1; f2 := 2 |}; {| f0 := 0; f1 := 2; f2 := 3 |} ].

(** ** Predicates on hits *)

(** [0 < hit.t < inf]: the hit lies ahead of the origin of the ray, at a
    finite distance. *)
Definition ahead (hit : embree.Hit) : Prop :=
  Float.ltb embree.zero (embree.t hit) = true
  /\ Float.ltb (embree.t hit) embree.inf = true.

(** ** More scenes *)



(** The origin of the ray lies on a triangle, struck at t = 0; another
    triangle is struck at t = 5. *)
Definition scene_touching : list embree.Hit :=
  [hit_at 1 embree.zero; hit_at 0 (Float.of_Z 5)].
(** * IEEE-754 arithmetic: rounding, order, sums

    The facts about [SpecFloat] that the traversal needs: what
    [binary_round] makes of an exact value, that [SFcompare] is an order on
    numbers, and that adding a non-negative number never lowers a
    non-negative one. *)

(** ** Binary digits *)

Lemma digits2_pos_size p : digits2_pos p = Pos.size p.
Proof. induction p as [p IH | p IH |]; cbn; now rewrite ?IH. Qed.

Lemma Zdigits2_log2 z : 0 < z -> Zdigits2 z = Z.log2 z + 1.
Proof.
  destruct z as [| p | p]; try lia. intros _. cbn [Zdigits2].
  rewrite digits2_pos_size. destruct p; cbn; lia.
Qed.

Lemma Zdigits2_nonneg z : 0 <= Zdigits2 z.
Proof. destruct z; cbn; lia. Qed.

Lemma Zdigits2_positive z : 0 < z -> 0 < Zdigits2 z.
Proof. destruct z; cbn; lia. Qed.

Lemma Zdigits2_bounds z :
  0 < z -> 2 ^ (Zdigits2 z - 1) <= z < 2 ^ Zdigits2 z.
Proof.
  intros Hz. rewrite (Zdigits2_log2 z Hz).
  replace (Z.log2 z + 1 - 1) with (Z.log2 z) by lia.
  apply (Z.log2_spec z Hz).
Qed.

Lemma Zdigits2_mono a b : 0 < a -> a <= b -> Zdigits2 a <= Zdigits2 b.
Proof.
  intros Ha Hab. rewrite !Zdigits2_log2 by lia.
  pose proof (Z.log2_le_mono a b Hab). lia.
Qed.

Lemma Zdigits2_succ z :
  0 <= z -> Zdigits2 z <= Zdigits2 (z + 1) <= Zdigits2 z + 1.
Proof.
  intros Hz. destruct (Z.eq_dec z 0) as [-> | Hne]; [cbn; lia |].
  rewrite !Zdigits2_log2 by lia.
  pose proof (Z.log2_le_mono z (z + 1)). pose proof (Z.log2_succ_le z).
  unfold Z.succ in *. lia.
Qed.

Lemma Zdigits2_div z n :
  0 < z -> 0 <= n -> Zdigits2 (z / 2 ^ n) = Z.max 0 (Zdigits2 z - n).
Proof.
  intros Hz Hn. rewrite (Zdigits2_log2 z Hz).
  assert (Hp : 0 < 2 ^ n) by (apply Z.pow_pos_nonneg; lia).
  destruct (Z.lt_ge_cases z (2 ^ n)) as [Hlt | Hge].
  - rewrite Z.div_small by lia. cbn.
    apply Z.log2_lt_pow2 in Hlt; lia.
  - assert (Hq : 0 < z / 2 ^ n).
    { apply Z.div_str_pos. lia. }
    rewrite (Zdigits2_log2 _ Hq), <- Z.shiftr_div_pow2, Z.log2_shiftr by lia.
    apply Z.log2_le_pow2 in Hge; lia.
Qed.

Lemma Zdigits2_mul z n :
  0 < z -> 0 <= n -> Zdigits2 (z * 2 ^ n) = Zdigits2 z + n.
Proof.
  intros Hz Hn.
  assert (Hp : 0 < 2 ^ n) by (apply Z.pow_pos_nonneg; lia).
  rewrite !Zdigits2_log2 by nia. rewrite Z.log2_mul_pow2 by lia. lia.
Qed.

(** ** Shifting right *)

Lemma shr_1_m mrs : 0 <= shr_m mrs -> shr_m (shr_1 mrs) = shr_m mrs / 2.
Proof.
  destruct mrs as [m r s]. cbn [shr_m]. intros Hm.
  rewrite <- Z.div2_div. destruct m as [| [p | p |] | p]; cbn; lia.
Qed.

Lemma pow2_xO p : 2 ^ Zpos p~0 = 2 ^ Zpos p * 2 ^ Zpos p.
Proof. rewrite <- Z.pow_add_r by lia. f_equal. lia. Qed.

Lemma pow2_xI p : 2 ^ Zpos p~1 = 2 * (2 ^ Zpos p * 2 ^ Zpos p).
Proof.
  rewrite <- Z.pow_add_r by lia. rewrite <- (Z.pow_succ_r 2) by lia.
  f_equal. lia.
Qed.

Lemma iter_shr_1_m p : forall mrs,
  0 <= shr_m mrs ->
  shr_m (iter_pos shr_1 p mrs) = shr_m mrs / 2 ^ Zpos p.
Proof.
  assert (Hpow : forall q : positive, 0 < 2 ^ Zpos q)
    by (intros; apply Z.pow_pos_nonneg; lia).
  induction p as [p IH | p IH |]; intros mrs Hm; cbn [iter_pos].
  - pose proof (Hpow p) as Hp.
    assert (H1 : 0 <= shr_m (shr_1 mrs))
      by (rewrite shr_1_m by assumption; apply Z.div_pos; lia).
    assert (H2 : 0 <= shr_m (iter_pos shr_1 p (shr_1 mrs)))
      by (rewrite IH by assumption; apply Z.div_pos; lia).
    rewrite IH, IH, shr_1_m by assumption.
    rewrite !Z.div_div by lia. f_equal. rewrite pow2_xI. lia.
  - pose proof (Hpow p) as Hp.
    assert (H2 : 0 <= shr_m (iter_pos shr_1 p mrs))
      by (rewrite IH by assumption; apply Z.div_pos; lia).
    rewrite IH, IH by assumption.
    rewrite Z.div_div by lia. f_equal. now rewrite pow2_xO.
  - now rewrite shr_1_m.
Qed.

Lemma shr_spec mrs e n :
  0 <= shr_m mrs ->
  shr_m (fst (shr mrs e n)) = shr_m mrs / 2 ^ Z.max 0 n
  /\ snd (shr mrs e n) = e + Z.max 0 n.
Proof.
  intros Hm. destruct n as [| p | p]; cbn [shr fst snd].
  - cbn. rewrite Z.div_1_r. lia.
  - rewrite iter_shr_1_m by assumption. replace (Z.max 0 (Zpos p)) with (Zpos p) by lia.
    split; reflexivity.
  - replace (Z.max 0 (Zneg p)) with 0 by lia. cbn. rewrite Z.div_1_r. lia.
Qed.

Lemma round_nearest_even_cases m l :
  round_nearest_even m l = m \/ round_nearest_even m l = m + 1.
Proof.
  destruct l as [| []]; cbn; auto. destruct (Z.even m); auto.
Qed.

(** ** Rounding an exact value to the format *)

Section Format.

Variables prec emax : Z.
Hypothesis prec_pos : 0 < prec.

Local Abbreviation emin := (emin prec emax).
Local Abbreviation fexp := (fexp prec emax).

Lemma fexp_mono a b : a <= b -> fexp a <= fexp b.
Proof. unfold SpecFloat.fexp. lia. Qed.

Lemma shr_fexp_spec m e l :
  0 <= m ->
  shr_m (fst (shr_fexp prec emax m e l))
  = m / 2 ^ Z.max 0 (fexp (Zdigits2 m + e) - e)
  /\ snd (shr_fexp prec emax m e l)
     = e + Z.max 0 (fexp (Zdigits2 m + e) - e).
Proof.
  intros Hm. unfold shr_fexp.
  assert (Hr : shr_m (shr_record_of_loc m l) = m) by (destruct l as [| []]; reflexivity).
  destruct (shr_spec (shr_record_of_loc m l) e (fexp (Zdigits2 m + e) - e)) as (H1 & H2);
    [rewrite Hr; exact Hm |].
  rewrite Hr in H1. split; assumption.
Qed.

(** The arithmetic of the two shifts of [binary_round_aux] on an exact
    mantissa [m] at an exponent [e] that is not above the format's. *)
Lemma round_core m e m1 :
  0 < m -> e <= fexp (Zdigits2 m + e) ->
  let e1 := fexp (Zdigits2 m + e) in
  let q := m / 2 ^ (e1 - e) in
  m1 = q \/ m1 = q + 1 ->
  let n2 := Z.max 0 (fexp (Zdigits2 m1 + e1) - e1) in
  let m2 := m1 / 2 ^ n2 in
  let e2 := e1 + n2 in
  0 <= m2
  /\ (m2 = 0 -> q = 0)
  /\ (0 < m2 ->
      fexp (Zdigits2 m2 + e2) = e2 /\ (e1 < e2 \/ (e2 = e1 /\ q <= m2))).
Proof.
  intros Hm He e1 q Hm1 n2 m2 e2.
  assert (Hq0 : 0 <= q) by (apply Z.div_pos; [lia | apply Z.pow_pos_nonneg; lia]).
  assert (Hdq : Zdigits2 q = Z.max 0 (Zdigits2 m - (e1 - e)))
    by (apply Zdigits2_div; lia).
  assert (Hm10 : 0 <= m1) by lia.
  assert (Hd1 : Zdigits2 q <= Zdigits2 m1 <= Zdigits2 q + 1).
  { destruct Hm1 as [-> | ->]; [lia | now apply Zdigits2_succ]. }
  assert (Hn2 : 0 <= n2) by lia.
  assert (Hp2 : 0 < 2 ^ n2) by (apply Z.pow_pos_nonneg; lia).
  assert (Hm20 : 0 <= m2) by (apply Z.div_pos; lia).
  pose proof (Zdigits2_positive m Hm) as HD.
  split; [exact Hm20 |].
  destruct (Z.eq_dec m1 0) as [Hz | Hnz].
  - (* the mantissa vanished *)
    assert (m2 = 0) by (subst m2; rewrite Hz; apply Z.div_0_l; lia).
    split; [lia | lia].
  - assert (Hd2 : Zdigits2 m2 = Z.max 0 (Zdigits2 m1 - n2))
      by (apply Zdigits2_div; lia).
    pose proof (Zdigits2_positive m1 ltac:(lia)) as Hd1p.
    assert (Hn2' : n2 = 0 -> m2 = m1) by (intros E; subst m2; rewrite E; apply Z.div_1_r).
    subst e1 e2 n2. unfold SpecFloat.fexp in *.
    split.
    + intros Hm2. destruct (Z.eq_dec (Z.max 0
          (Z.max (Zdigits2 m1 + Z.max (Zdigits2 m + e - prec) emin - prec) emin
           - Z.max (Zdigits2 m + e - prec) emin)) 0) as [E | E].
      * rewrite (Hn2' E) in Hm2. lia.
      * exfalso. assert (0 < Zdigits2 m2) by lia.
        rewrite Hm2 in H. cbn in H. lia.
    + intros Hm2. pose proof (Zdigits2_positive m2 Hm2) as Hd2p.
      split; [lia |].
      destruct (Z.eq_dec (Z.max 0
          (Z.max (Zdigits2 m1 + Z.max (Zdigits2 m + e - prec) emin - prec) emin
           - Z.max (Zdigits2 m + e - prec) emin)) 0) as [E | E].
      * right. rewrite (Hn2' E). lia.
      * left. lia.
Qed.

Lemma binary_round_aux_exact s m e :
  e <= fexp (Zpos (digits2_pos m) + e) ->
  match binary_round_aux prec emax s (Zpos m) e loc_Exact with
  | S754_zero s' =>
      s' = s /\ Zpos m / 2 ^ (fexp (Zpos (digits2_pos m) + e) - e) = 0
  | S754_infinity s' => s' = s
  | S754_finite s' m2 e2 =>
      s' = s /\ bounded prec emax m2 e2 = true
      /\ (fexp (Zpos (digits2_pos m) + e) < e2
          \/ (e2 = fexp (Zpos (digits2_pos m) + e)
              /\ Zpos m / 2 ^ (fexp (Zpos (digits2_pos m) + e) - e) <= Zpos m2))
  | S754_nan => False
  end.
Proof.
  intros He. unfold binary_round_aux.
  destruct (shr_fexp_spec (Zpos m) e loc_Exact) as (Hm1 & He1); [lia |].
  destruct (shr_fexp prec emax (Zpos m) e loc_Exact) as [mrs' e'].
  cbn [fst snd] in Hm1, He1. cbn [Zdigits2] in Hm1, He1.
  replace (Z.max 0 (fexp (Zpos (digits2_pos m) + e) - e))
    with (fexp (Zpos (digits2_pos m) + e) - e) in Hm1, He1 by lia.
  replace (e + (fexp (Zpos (digits2_pos m) + e) - e))
    with (fexp (Zpos (digits2_pos m) + e)) in He1 by lia.
  set (m1 := round_nearest_even (shr_m mrs') (loc_of_shr_record mrs')).
  assert (Hr : m1 = shr_m mrs' \/ m1 = shr_m mrs' + 1)
    by apply round_nearest_even_cases.
  rewrite Hm1 in Hr.
  pose proof (round_core (Zpos m) e m1 ltac:(lia) He Hr) as Hc.
  cbv zeta in Hc. cbn [Zdigits2] in Hc. destruct Hc as (H0 & Hz & Hp).
  assert (Hm10 : 0 <= m1).
  { assert (0 <= Zpos m / 2 ^ (fexp (Zpos (digits2_pos m) + e) - e))
      by (apply Z.div_pos; [lia | apply Z.pow_pos_nonneg; lia]). lia. }
  destruct (shr_fexp_spec m1 e' loc_Exact Hm10) as (Hm2 & He2).
  destruct (shr_fexp prec emax m1 e' loc_Exact) as [mrs'' e''].
  cbn [fst snd] in Hm2, He2. subst e'.
  rewrite <- Hm2 in H0, Hz, Hp. rewrite <- He2 in Hp.
  destruct (shr_m mrs'') as [| m2 | m2]; [| | lia].
  - split; [reflexivity | now apply Hz].
  - destruct (Hp ltac:(lia)) as (Hc & Hlow). cbn [Zdigits2] in Hc.
    destruct (Z.leb_spec e'' (emax - prec)); [| reflexivity].
    split; [reflexivity |]. split; [| exact Hlow].
    unfold bounded, canonical_mantissa. apply andb_true_iff. split.
    + now apply Z.eqb_eq.
    + apply Z.leb_le. lia.
Qed.

Lemma iter_xO_pow2 m d : Zpos (Pos.iter xO m d) = Zpos m * 2 ^ Zpos d.
Proof.
  induction d as [| d IH] using Pos.peano_ind.
  - cbn. lia.
  - rewrite Pos.iter_succ, Pos2Z.inj_xO, IH, Pos2Z.inj_succ, Z.pow_succ_r by lia.
    lia.
Qed.

(** What rounding makes of the exact value [m * 2^e]: the exponent of the
    result is not below the format's exponent [e1] for that value, and at
    [e1] its mantissa is not below the value's, cut at [e1]. *)
Lemma binary_round_spec s m e :
  match binary_round prec emax s m e with
  | S754_zero s' => s' = s /\ e < emin
  | S754_infinity s' => s' = s
  | S754_finite s' m2 e2 =>
      s' = s /\ bounded prec emax m2 e2 = true
      /\ (fexp (Zpos (digits2_pos m) + e) < e2
          \/ (e2 = fexp (Zpos (digits2_pos m) + e)
              /\ Zpos m * 2 ^ (e - e2) <= Zpos m2
              /\ Zpos m / 2 ^ (e2 - e) <= Zpos m2))
  | S754_nan => False
  end.
Proof.
  unfold binary_round, shl_align.
  pose proof (Zdigits2_bounds (Zpos m) ltac:(lia)) as Hb. cbn [Zdigits2] in Hb.
  destruct (fexp (Zpos (digits2_pos m) + e) - e) as [| d | d] eqn:Hd.
  - pose proof (binary_round_aux_exact s m e ltac:(lia)) as H.
    destruct (binary_round_aux prec emax s (Zpos m) e loc_Exact) as [s' | s' | | s' m2 e2];
      try exact H.
    + destruct H as (-> & H). split; [reflexivity |].
      rewrite Hd in H. cbn in H. rewrite Z.div_1_r in H. lia.
    + destruct H as (-> & Hbd & H). split; [reflexivity |]. split; [exact Hbd |].
      destruct H as [H | (-> & H)]; [now left | right].
      rewrite Hd in H. cbn in H. rewrite Z.div_1_r in H.
      replace (e - fexp (Zpos (digits2_pos m) + e)) with 0 by lia.
      replace (fexp (Zpos (digits2_pos m) + e) - e) with 0 by lia.
      cbn. rewrite Z.div_1_r. lia.
  - pose proof (binary_round_aux_exact s m e ltac:(lia)) as H.
    rewrite Hd in H.
    destruct (binary_round_aux prec emax s (Zpos m) e loc_Exact) as [s' | s' | | s' m2 e2];
      try exact H.
    + destruct H as (-> & H). split; [reflexivity |].
      assert (Hp : 0 < 2 ^ Zpos d) by (apply Z.pow_pos_nonneg; lia).
      assert (Hlt : Zpos m < 2 ^ Zpos d).
      { destruct (Z.lt_ge_cases (Zpos m) (2 ^ Zpos d)) as [Hlt | Hge]; [exact Hlt |].
        assert (0 < Zpos m / 2 ^ Zpos d) by (apply Z.div_str_pos; lia). lia. }
      apply Z.log2_lt_pow2 in Hlt; [| lia].
      pose proof (Zdigits2_log2 (Zpos m) ltac:(lia)) as HD. cbn [Zdigits2] in HD.
      unfold SpecFloat.fexp in *. lia.
    + destruct H as (-> & Hbd & H). split; [reflexivity |]. split; [exact Hbd |].
      destruct H as [H | (-> & H)]; [now left | right].
      split; [reflexivity |].
      replace (fexp (Zpos (digits2_pos m) + e) - e) with (Zpos d) by lia.
      split; [| exact H].
      replace (e - fexp (Zpos (digits2_pos m) + e)) with (Zneg d) by lia.
      cbn. lia.
  - change (PosDef.Pos.iter xO m d) with (Pos.iter xO m d).
    assert (Hdig : Zpos (digits2_pos (Pos.iter xO m d)) = Zpos (digits2_pos m) + Zpos d).
    { change (Zdigits2 (Zpos (Pos.iter xO m d)) = Zdigits2 (Zpos m) + Zpos d).
      rewrite iter_xO_pow2. apply Zdigits2_mul; lia. }
    pose proof (binary_round_aux_exact s (Pos.iter xO m d)
                  (fexp (Zpos (digits2_pos m) + e))) as H.
    rewrite Hdig in H.
    replace (Zpos (digits2_pos m) + Zpos d + fexp (Zpos (digits2_pos m) + e))
      with (Zpos (digits2_pos m) + e) in H by lia.
    specialize (H ltac:(lia)).
    set (r := binary_round_aux prec emax s _ _ loc_Exact) in *.
    rewrite Z.sub_diag, iter_xO_pow2 in H. cbn [Z.pow] in H. rewrite Z.div_1_r in H.
    assert (Hp : 0 < 2 ^ Zpos d) by (apply Z.pow_pos_nonneg; lia).
    destruct r as [s' | s' | | s' m2 e2]; try exact H.
    + destruct H as (_ & H). nia.
    + destruct H as (-> & Hbd & H). split; [reflexivity |]. split; [exact Hbd |].
      destruct H as [H | (-> & H)]; [now left | right].
      split; [reflexivity |].
      replace (e - fexp (Zpos (digits2_pos m) + e)) with (Zpos d) by lia.
      split; [exact H |].
      replace (fexp (Zpos (digits2_pos m) + e) - e) with (Zneg d) by lia.
      rewrite Z.pow_neg_r by lia. rewrite Z.div_0_r. lia.
Qed.

End Format.

(** ** The order of [SFcompare] *)

Lemma compare_cont_Eq p q : Pos.compare_cont Eq p q = (Zpos p ?= Zpos q).
Proof. reflexivity. Qed.

Lemma SFleb_key x y :
  SFleb x y = true <->
  exists a b, key x = Some a /\ key y = Some b /\ key_le a b.
Proof.
  unfold SFleb.
  destruct x as [[] | [] | | [] mx ex], y as [[] | [] | | [] my ey];
    cbn [SFcompare key];
    try (split; [intros _; do 2 eexists; repeat split; cbn; lia
                | reflexivity]);
    try (split; [discriminate | intros (a & b & [= <-] & [= <-] & Hk); cbn in Hk; lia]);
    try (split; [discriminate | intros (a & b & H & _); discriminate H]);
    try (split; [discriminate | intros (a & b & _ & H & _); discriminate H]).
  - rewrite compare_cont_Eq.
    destruct (Z.compare_spec ex ey), (Z.compare_spec (Zpos mx) (Zpos my)); cbn;
      (split; [try discriminate; intros _; do 2 eexists; repeat split; cbn; lia
              | try reflexivity; intros (a & b & [= <-] & [= <-] & Hk); cbn in Hk; lia]).
  - rewrite compare_cont_Eq.
    destruct (Z.compare_spec ex ey), (Z.compare_spec (Zpos mx) (Zpos my)); cbn;
      (split; [try discriminate; intros _; do 2 eexists; repeat split; cbn; lia
              | try reflexivity; intros (a & b & [= <-] & [= <-] & Hk); cbn in Hk; lia]).
Qed.

Lemma SFltb_key x y :
  SFltb x y = true <->
  exists a b, key x = Some a /\ key y = Some b /\ key_lt a b.
Proof.
  unfold SFltb.
  destruct x as [[] | [] | | [] mx ex], y as [[] | [] | | [] my ey];
    cbn [SFcompare key];
    try (split; [intros _; do 2 eexists; repeat split; cbn; lia
                | reflexivity]);
    try (split; [discriminate | intros (a & b & [= <-] & [= <-] & Hk); cbn in Hk; lia]);
    try (split; [discriminate | intros (a & b & H & _); discriminate H]);
    try (split; [discriminate | intros (a & b & _ & H & _); discriminate H]).
  - rewrite compare_cont_Eq.
    destruct (Z.compare_spec ex ey), (Z.compare_spec (Zpos mx) (Zpos my)); cbn;
      (split; [try discriminate; intros _; do 2 eexists; repeat split; cbn; lia
              | try reflexivity; intros (a & b & [= <-] & [= <-] & Hk); cbn in Hk; lia]).
  - rewrite compare_cont_Eq.
    destruct (Z.compare_spec ex ey), (Z.compare_spec (Zpos mx) (Zpos my)); cbn;
      (split; [try discriminate; intros _; do 2 eexists; repeat split; cbn; lia
              | try reflexivity; intros (a & b & [= <-] & [= <-] & Hk); cbn in Hk; lia]).
Qed.

Ltac keys :=
  repeat match goal with
    | H : SFleb _ _ = true |- _ =>
        apply SFleb_key in H; destruct H as ([[? ?] ?] & [[? ?] ?] & ? & ? & H)
    | H : SFltb _ _ = true |- _ =>
        apply SFltb_key in H; destruct H as ([[? ?] ?] & [[? ?] ?] & ? & ? & H)
    end;
  repeat match goal with
    | H : key ?x = Some _, H' : key ?x = Some _ |- _ =>
        rewrite H in H'; injection H' as <- <- <-
    end.

Lemma SFleb_trans x y z :
  SFleb x y = true -> SFleb y z = true -> SFleb x z = true.
Proof.
  intros H1 H2. keys. apply SFleb_key. do 2 eexists.
  repeat split; try eassumption. cbn in *. lia.
Qed.

Lemma SFleb_ltb_trans x y z :
  SFleb x y = true -> SFltb y z = true -> SFltb x z = true.
Proof.
  intros H1 H2. keys. apply SFltb_key. do 2 eexists.
  repeat split; try eassumption. cbn in *. lia.
Qed.

Lemma SFltb_leb x y : SFltb x y = true -> SFleb x y = true.
Proof.
  intros H1. keys. apply SFleb_key. do 2 eexists.
  repeat split; try eassumption. cbn in *. lia.
Qed.

Lemma SFleb_refl x : x <> S754_nan -> SFleb x x = true.
Proof.
  intros Hx. apply SFleb_key.
  destruct x as [[] | [] | | [] m e]; try congruence;
    do 2 eexists; repeat split; cbn; lia.
Qed.

Lemma SFltb_irrefl x : SFltb x x = false.
Proof.
  destruct (SFltb x x) eqn:H; [| reflexivity].
  pose proof H as H'. keys. cbn in *. lia.
Qed.

(** ** Sums of non-negative numbers *)

Lemma nonneg_cases x :
  nonneg x <->
  (exists s, x = S754_zero s) \/ x = S754_infinity false
  \/ exists m e, x = S754_finite false m e.
Proof.
  unfold nonneg.
  destruct x as [s | [] | | [] m e]; cbn; split; intros H;
    try discriminate; try reflexivity; eauto;
    destruct H as [(s' & H) | [H | (m' & e' & H)]]; discriminate.
Qed.

Section Sums.

Variables prec emax : Z.
Hypothesis prec_pos : 0 < prec.

Local Abbreviation emin := (emin prec emax).
Local Abbreviation fexp := (fexp prec emax).

Lemma bounded_canonical m e :
  bounded prec emax m e = true ->
  fexp (Zpos (digits2_pos m) + e) = e /\ emin <= e.
Proof.
  unfold bounded, canonical_mantissa. intros H.
  apply andb_true_iff in H as (H & _). apply Z.eqb_eq in H.
  split; [exact H |]. unfold SpecFloat.fexp in H. lia.
Qed.

Lemma shl_align_value mx ex ez :
  ez <= ex -> Zpos (fst (shl_align mx ex ez)) = Zpos mx * 2 ^ (ex - ez).
Proof.
  intros Hle. unfold shl_align.
  destruct (ez - ex) as [| d | d] eqn:Hd; cbn [fst].
  - replace (ex - ez) with 0 by lia. cbn. lia.
  - lia.
  - change (PosDef.Pos.iter xO mx d) with (Pos.iter xO mx d).
    rewrite iter_xO_pow2. f_equal. f_equal. lia.
Qed.

Lemma SFadd_nonneg_mono x y :
  valid_binary prec emax x = true -> valid_binary prec emax y = true ->
  nonneg x -> nonneg y ->
  valid_binary prec emax (SFadd prec emax x y) = true
  /\ nonneg (SFadd prec emax x y)
  /\ SFleb x (SFadd prec emax x y) = true.
Proof.
  intros Vx Vy Nx Ny.
  apply nonneg_cases in Nx as [(sx & ->) | [-> | (mx & ex & ->)]];
    apply nonneg_cases in Ny as [(sy & ->) | [-> | (my & ey & ->)]];
    try (destruct sx, sy; cbn; repeat split; reflexivity);
    try (destruct sx; cbn; repeat split; reflexivity);
    try (destruct sy; cbn; repeat split; reflexivity);
    try (cbn; repeat split; reflexivity).
  - (* zero + finite *) cbn [SFadd]. split; [exact Vy |]. split; reflexivity.
  - (* finite + zero *) cbn [SFadd]. split; [exact Vx |]. split; [reflexivity |].
    apply SFleb_refl. discriminate.
  - (* finite + finite *)
    cbn [valid_binary] in Vx, Vy.
    destruct (bounded_canonical _ _ Vx) as (Hcx & Hex).
    destruct (bounded_canonical _ _ Vy) as (Hcy & Hey).
    cbn [SFadd cond_Zopp]. set (ez := Z.min ex ey).
    pose proof (shl_align_value mx ex ez ltac:(lia)) as Ha.
    set (a := fst (shl_align mx ex ez)) in *.
    set (b := fst (shl_align my ey ez)) in *.
    cbn [Z.add binary_normalize].
    pose proof (binary_round_spec prec emax prec_pos false (a + b) ez) as H.
    assert (Hp : 0 < 2 ^ (ex - ez)) by (apply Z.pow_pos_nonneg; lia).
    assert (Hsum : Zpos mx * 2 ^ (ex - ez) <= Zpos (a + b)) by lia.
    assert (Hdig : Zpos (digits2_pos mx) + (ex - ez) <= Zpos (digits2_pos (a + b))).
    { change (Zdigits2 (Zpos mx) + (ex - ez) <= Zdigits2 (Zpos (a + b))).
      rewrite <- Zdigits2_mul by lia. apply Zdigits2_mono; lia. }
    pose proof (fexp_mono prec emax (Zpos (digits2_pos mx) + ex)
                  (Zpos (digits2_pos (a + b)) + ez) ltac:(lia)) as Hmono.
    rewrite Hcx in Hmono.
    destruct (binary_round prec emax false (a + b) ez) as [s' | s' | | s' m2 e2].
    + lia.
    + subst s'. split; [reflexivity |]. split; reflexivity.
    + contradiction.
    + destruct H as (-> & Hbd & Hlow).
      split; [exact Hbd |]. split; [reflexivity |].
      apply SFleb_key. do 2 eexists. repeat split. cbn.
      right. split; [reflexivity |].
      destruct Hlow as [Hlt | (-> & _ & Hq)]; [lia |].
      destruct (Z.eq_dec ex (fexp (Zpos (digits2_pos (a + b)) + ez))) as [E | E]; [| lia].
      right. split; [exact E |]. rewrite <- E in Hq.
      pose proof (Z.div_le_lower_bound (Zpos (a + b)) (2 ^ (ex - ez)) (Zpos mx) Hp
                    ltac:(lia)). lia.
Qed.

(** Rounding gives a number of the format. *)
Lemma binary_normalize_valid s m e :
  valid_binary prec emax (binary_normalize prec emax (cond_Zopp s (Zpos m)) e s)
  = true.
Proof.
  assert (H : binary_normalize prec emax (cond_Zopp s (Zpos m)) e s
              = binary_round prec emax s m e) by (destruct s; reflexivity).
  rewrite H. pose proof (binary_round_spec prec emax prec_pos s m e) as Hs.
  destruct (binary_round prec emax s m e); cbn; try reflexivity. apply Hs.
Qed.

(** The product of a number of full precision with a positive number. *)
Lemma SFmul_full_precision m1 e1 m2 e2 :
  Zpos (digits2_pos m1) = prec ->
  valid_binary prec emax
    (SFmul prec emax (S754_finite false m1 e1) (S754_finite false m2 e2)) = true
  /\ nonneg (SFmul prec emax (S754_finite false m1 e1) (S754_finite false m2 e2)).
Proof.
  intros Hd. cbn [SFmul xorb].
  pose proof (binary_round_aux_exact prec emax prec_pos false (m1 * m2) (e1 + e2)) as H.
  assert (Hdig : prec <= Zpos (digits2_pos (m1 * m2))).
  { rewrite <- Hd. change (Zdigits2 (Zpos m1) <= Zdigits2 (Zpos (m1 * m2))).
    apply Zdigits2_mono; nia. }
  assert (Hle : e1 + e2 <= fexp (Zpos (digits2_pos (m1 * m2)) + (e1 + e2)))
    by (unfold SpecFloat.fexp; lia).
  specialize (H Hle).
  change (PosDef.Pos.mul m1 m2) with (m1 * m2)%positive.
  destruct (binary_round_aux prec emax false (Zpos (m1 * m2)) (e1 + e2) loc_Exact)
    as [s' | s' | | s' m e].
  - destruct H as (-> & _). split; reflexivity.
  - subst s'. split; reflexivity.
  - contradiction.
  - destruct H as (-> & Hbd & _). split; [exact Hbd | reflexivity].
Qed.

End Sums.

(** ** Rounding keeps the sign *)

Section Signs.
Variables prec emax : Z.

Lemma SFcompare_swap x y :
  SFcompare y x = option_map CompOpp (SFcompare x y).
Proof.
  destruct x as [sx | sx | | sx mx ex], y as [sy | sy | | sy my ey]; 
    try destruct sx; try destruct sy; cbn; try reflexivity.
  - rewrite (Z.compare_antisym ex ey). destruct (ex ?= ey); cbn; try reflexivity.
    do 2 f_equal. exact (eq_sym (Pos.compare_cont_antisym mx my Eq)).
  - rewrite (Z.compare_antisym ex ey). destruct (ex ?= ey); cbn; try reflexivity.
    f_equal. exact (eq_sym (Pos.compare_cont_antisym mx my Eq)).
Qed.

Lemma shr_1_nonneg mrs : 0 <= shr_m mrs -> 0 <= shr_m (shr_1 mrs).
Proof.
  destruct mrs as [m r s]. cbn [shr_m]. intros Hm.
  destruct m as [| [p | p |] | p]; cbn; lia.
Qed.

Lemma iter_shr_1_nonneg p : forall mrs,
  0 <= shr_m mrs -> 0 <= shr_m (iter_pos shr_1 p mrs).
Proof.
  induction p as [p IH | p IH |]; intros mrs Hm; cbn.
  - apply IH, IH. now apply shr_1_nonneg.
  - now apply IH, IH.
  - now apply shr_1_nonneg.
Qed.

Lemma shr_nonneg mrs e n : 0 <= shr_m mrs -> 0 <= shr_m (fst (shr mrs e n)).
Proof.
  intros Hm. destruct n; cbn; try assumption. now apply iter_shr_1_nonneg.
Qed.

Lemma shr_fexp_nonneg m e l :
  0 <= m -> 0 <= shr_m (fst (shr_fexp prec emax m e l)).
Proof.
  intros Hm. unfold shr_fexp. apply shr_nonneg.
  destruct l as [| []]; cbn; assumption.
Qed.

Lemma round_nearest_even_nonneg m l : 0 <= m -> 0 <= round_nearest_even m l.
Proof.
  intros Hm. destruct l as [| []]; cbn; try lia. destruct (Z.even m); lia.
Qed.

Lemma binary_round_aux_signed s m e l :
  0 <= m -> signed s (binary_round_aux prec emax s m e l).
Proof.
  intros Hm. unfold binary_round_aux.
  pose proof (shr_fexp_nonneg m e l Hm) as H1.
  destruct (shr_fexp prec emax m e l) as [mrs' e'] eqn:E1. cbn [fst] in H1.
  pose proof (shr_fexp_nonneg _ e' loc_Exact
                (round_nearest_even_nonneg _ (loc_of_shr_record mrs') H1)) as H2.
  destruct (shr_fexp prec emax _ e' loc_Exact) as [mrs'' e''] eqn:E2. cbn [fst] in H2.
  destruct (shr_m mrs'') as [| p | p]; [constructor | | lia].
  destruct (e'' <=? emax - prec); constructor.
Qed.

Lemma binary_normalize_signed s m e :
  signed s (binary_normalize prec emax (cond_Zopp s (Zpos m)) e s).
Proof.
  destruct s; cbn; unfold binary_round;
    destruct (shl_align _ _ _) as [mz ez]; apply binary_round_aux_signed; lia.
Qed.
End Signs.

(** * Properties of one pass through the loop *)

Section OnePass.

Variable intersect : embree.Ray -> option embree.Hit.
Variable FLOAT_EPS : float.
Variables o d : embree.Vec3f.

Local Abbreviation pass := (loop_body intersect FLOAT_EPS o d).
Local Abbreviation reached := (after_hit FLOAT_EPS).

Lemma loop_body_hit st hit :
  intersect (ray_of o d st) = Some hit ->
  pass st =
    if (1000 <? List.length (hits (reached st hit)))%nat
       && negb (large_hits_warned st)
    then Return (empty (hits (reached st hit))) (warn (reached st hit))
    else Continue (reached st hit).
Proof.
  intros Hq. unfold loop_body. rewrite Hq.
  change (self_hit (incr_num_rays st) hit) with (self_hit st hit).
  fold (reached st hit).
  replace (large_hits_warned (reached st hit)) with (large_hits_warned st)
    by (unfold after_hit; destruct (self_hit st hit); reflexivity).
  reflexivity.
Qed.

Lemma loop_body_miss st :
  intersect (ray_of o d st) = None ->
  pass st = Return (empty (hits st)) (incr_num_rays st).
Proof.
  intros Hq. unfold loop_body. rewrite Hq. reflexivity.
Qed.

Lemma state_of_hit st hit :
  intersect (ray_of o d st) = Some hit ->
  hits (state_of (pass st)) = hits (reached st hit)
  /\ min_t (state_of (pass st)) = min_t (reached st hit)
  /\ self_hits (state_of (pass st)) = self_hits (reached st hit)
  /\ last_id0 (state_of (pass st)) = last_id0 (reached st hit)
  /\ num_rays (state_of (pass st)) = num_rays st + 1.
Proof.
  intros Hq. rewrite (loop_body_hit _ _ Hq).
  destruct ((1000 <? _)%nat && _); cbn [state_of warn hits min_t self_hits last_id0 num_rays];
    unfold after_hit; destruct (self_hit st hit); repeat split; reflexivity.
Qed.

(** C1: in a pass of the multi-hit loop whose query returns a hit with the
    triangle id seen last, or with [t] not strictly greater than the current
    lower bound [min_t] (the test [hit.t <= min_t] of the source), the hit
    is not appended to [hits]; instead [min_t] is increased by
    [pow(2.0,self_hits)*eps], with [eps] the constant [FLOAT_EPS], and
    [self_hits] is incremented by one. *)
Theorem C1_self_hit_advances st hit :
  intersect (ray_of o d st) = Some hit ->
  embree.id0 hit = last_id0 st
  \/ Double.leb (float_to_double (embree.t hit)) (min_t st) = true ->
  hits (state_of (pass st)) = hits st
  /\ min_t (state_of (pass st))
     = Double.add (min_t st)
         (Double.mul (pow2 (self_hits st)) (float_to_double FLOAT_EPS))
  /\ self_hits (state_of (pass st)) = (self_hits st + 1)%N.
Proof.
  intros Hq Hself.
  assert (Hs : self_hit st hit = true).
  { unfold self_hit. apply orb_true_iff.
    destruct Hself as [Hid | Ht]; [left; now apply Z.eqb_eq | now right]. }
  destruct (state_of_hit st hit Hq) as (Hh & Hm & Hk & _).
  rewrite Hh, Hm, Hk. unfold after_hit. rewrite Hs.
  repeat split; reflexivity.
Qed.

(** C10: after a pass whose query returns a hit, [last_id0] is that hit's
    triangle id, whether the hit was recorded or discarded as a self hit, so
    the self-hit test of the next pass compares against the id of a
    discarded hit as well. *)
Theorem C10_last_id0_follows_every_hit st hit :
  intersect (ray_of o d st) = Some hit ->
  last_id0 (state_of (pass st)) = embree.id0 hit
  /\ (self_hit st hit = true ->
      hits (state_of (pass st)) = hits st
      /\ forall next,
          self_hit (state_of (pass st)) next
          = (embree.id0 next =? embree.id0 hit)
            || Double.leb (float_to_double (embree.t next))
                 (min_t (state_of (pass st)))).
Proof.
  intros Hq.
  destruct (state_of_hit st hit Hq) as (Hh & _ & _ & Hl & _).
  assert (Hid : last_id0 (state_of (pass st)) = embree.id0 hit).
  { rewrite Hl. unfold after_hit. destruct (self_hit st hit); reflexivity. }
  split; [exact Hid |].
  intros Hs. split.
  - rewrite Hh. unfold after_hit. rewrite Hs. reflexivity.
  - intros next. unfold self_hit at 1. rewrite Hid. reflexivity.
Qed.

End OnePass.

(** * Properties of a whole traversal *)

Section Traversal.

Variable intersect : embree.Ray -> option embree.Hit.
Variable FLOAT_EPS : float.
Variables origin direction : RowVector3.

Local Abbreviation o := (toVec3f origin).
Local Abbreviation d := (toVec3f direction).

Local Abbreviation pass := (loop_body intersect FLOAT_EPS o d).
Local Abbreviation run := (fun fuel => loop intersect FLOAT_EPS fuel o d).
Local Abbreviation reached := (after_hit FLOAT_EPS).
Local Abbreviation entered := (reachable intersect FLOAT_EPS o d).

Lemma pending_init : pending init.
Proof. repeat split. cbn. lia. Qed.

Lemma after_hit_length st hit :
  List.length (hits (reached st hit))
  = if self_hit st hit then List.length (hits st) else S (List.length (hits st)).
Proof.
  unfold after_hit. destruct (self_hit st hit); cbn; [reflexivity |].
  rewrite length_app. cbn. lia.
Qed.

Lemma after_hit_hits_record st hit :
  self_hit st hit = false -> hits (reached st hit) = hits st ++ [hit].
Proof. intros Hs. unfold after_hit. rewrite Hs. reflexivity. Qed.

Lemma after_hit_hits_self st hit :
  self_hit st hit = true -> hits (reached st hit) = hits st.
Proof. intros Hs. unfold after_hit. rewrite Hs. reflexivity. Qed.

Lemma after_hit_cerr st hit : cerr (reached st hit) = cerr st.
Proof. unfold after_hit. destruct (self_hit st hit); reflexivity. Qed.

Lemma after_hit_warned st hit :
  large_hits_warned (reached st hit) = large_hits_warned st.
Proof. unfold after_hit. destruct (self_hit st hit); reflexivity. Qed.

Lemma pending_continue st st' :
  pending st -> pass st = Continue st' -> pending st'.
Proof.
  intros (Hlen & Hw & Hc) Hb.
  destruct (intersect (ray_of o d st)) as [hit |] eqn:Hq.
  - rewrite (loop_body_hit _ _ _ _ _ _ Hq), Hw in Hb. cbn [negb] in Hb.
    rewrite andb_true_r in Hb.
    destruct (1000 <? _)%nat eqn:Hg; [discriminate |].
    injection Hb as <-. apply Nat.ltb_ge in Hg.
    repeat split; [exact Hg | now rewrite after_hit_warned | now rewrite after_hit_cerr].
  - rewrite (loop_body_miss _ _ _ _ _ Hq) in Hb. discriminate.
Qed.

(** The two ways in which a pass leaves the function. *)
Lemma pending_return st b st' :
  pending st -> pass st = Return b st' ->
  (intersect (ray_of o d st) = None /\ st' = incr_num_rays st
   /\ b = empty (hits st))
  \/ (exists hit, intersect (ray_of o d st) = Some hit
      /\ self_hit st hit = false
      /\ List.length (hits st) = 1000%nat
      /\ st' = warn (reached st hit) /\ b = false).
Proof.
  intros (Hlen & Hw & Hc) Hb.
  destruct (intersect (ray_of o d st)) as [hit |] eqn:Hq.
  - right. exists hit.
    rewrite (loop_body_hit _ _ _ _ _ _ Hq), Hw in Hb. cbn [negb] in Hb.
    rewrite andb_true_r in Hb.
    destruct (1000 <? _)%nat eqn:Hg; [| discriminate].
    apply Nat.ltb_lt in Hg. rewrite after_hit_length in Hg.
    injection Hb as <- <-.
    destruct (self_hit st hit) eqn:Hs; [lia |].
    repeat split; try reflexivity; [lia |].
    cbn. destruct (hits st); reflexivity.
  - left. rewrite (loop_body_miss _ _ _ _ _ Hq) in Hb.
    injection Hb as <- <-. repeat split; reflexivity.
Qed.

Lemma loop_return fuel : forall st b st',
  pending st -> run fuel st = Some (b, st') ->
  exists last, pending last /\ pass last = Return b st'.
Proof.
  induction fuel as [| fuel IH]; intros st b st' Hp Hl; [discriminate |].
  cbn in Hl. destruct (pass st) as [st1 | b1 st1] eqn:Hb.
  - apply (IH st1); [now apply (pending_continue st) | exact Hl].
  - injection Hl as <- <-. now exists st.
Qed.

Lemma run_entered fuel : forall st b st',
  entered st -> run fuel st = Some (b, st') ->
  exists last, entered last /\ pass last = Return b st'.
Proof.
  induction fuel as [| fuel IH]; intros st b st' Hr Hl; [discriminate |].
  cbn in Hl. destruct (pass st) as [st1 | b1 st1] eqn:Hb.
  - apply (IH st1); [now apply (reachable_continue _ _ _ _ st) | exact Hl].
  - injection Hl as <- <-. now exists st.
Qed.

(** A traversal that has returned returns the same with more fuel. *)
Lemma run_more_fuel fuel : forall st r more,
  run fuel st = Some r -> run (fuel + more)%nat st = Some r.
Proof.
  induction fuel as [| fuel IH]; intros st r more Hl; [discriminate |].
  cbn in *. destruct (pass st); [now apply IH | exact Hl].
Qed.

(** C2: the boolean the multi-hit [intersectRay] returns is [true] exactly
    when the returned [hits] is empty, and it is [false] on the early return
    of the large-hit warning; this is the opposite of the "Returns true if
    and only if there was a hit" of the declaration. *)
Theorem C2_returns_true_iff_no_hit fuel st result :
  intersectRay_hits intersect FLOAT_EPS fuel origin direction
  = Some (result, st) ->
  (result = true <-> hits st = [])
  /\ (large_hits_warned st = true -> result = false)
  /\ (hits st <> [] -> result = false).
Proof.
  intros Hl.
  destruct (loop_return _ _ _ _ pending_init Hl) as (last & Hp & Hb).
  assert (Hiff : result = true <-> hits st = []).
  { destruct (pending_return _ _ _ Hp Hb)
      as [(_ & -> & ->) | (hit & _ & Hs & _ & -> & ->)].
    - cbn. destruct (hits last); cbn; split; congruence.
    - cbn [warn hits]. rewrite (after_hit_hits_record _ _ Hs).
      destruct (hits last); cbn; split; congruence. }
  split; [exact Hiff |]. split.
  - destruct (pending_return _ _ _ Hp Hb)
      as [(_ & -> & ->) | (hit & _ & _ & _ & -> & ->)]; [| reflexivity].
    destruct Hp as (_ & Hw & _). cbn. rewrite Hw. discriminate.
  - intros Hne. destruct result; [| reflexivity].
    exfalso. apply Hne. now apply Hiff.
Qed.

Lemma entered_pending st : entered st -> pending st.
Proof.
  induction 1 as [| st st' _ IH Hb]; [apply pending_init |].
  now apply (pending_continue _ _ IH Hb).
Qed.

(** What the warning holds: the header, the ids, each raised by one as
    the source prints them, and the distances. *)
Lemma warning_text_items (l : list embree.Hit) :
  warning_text l <> []
  /\ forall hit, In hit l ->
       In (Int (embree.id0 hit + 1)) (warning_text l)
       /\ In (Flt (embree.t hit)) (warning_text l).
Proof.
  split; [discriminate |]. intros hit Hin. unfold warning_text. split.
  - apply in_or_app. right. apply in_or_app. left.
    apply in_flat_map. exists hit. split; [exact Hin | now left].
  - apply in_or_app. right. apply in_or_app. right.
    apply in_or_app. right. apply in_or_app. left.
    apply in_flat_map. exists hit. split; [exact Hin | now left].
Qed.

(** C7: the loop is entered with at most 1000 hits and nothing written.
    The pass whose hit takes the count over 1000 writes the warning to
    [cerr] once and returns at once with the hits collected so far, without
    a further query; the call returns normally.  The warning is one header
    line, then the id of every collected hit, raised by one, then the
    distance of every collected hit, in the order of the hits.  So a
    traversal never returns more than 1001 hits, one that returns more than
    1000 has written exactly this one warning, which is not empty and holds
    [id0 + 1] and [t] of each returned hit, and one that returns at most
    1000 has written nothing. *)
Theorem C7_large_hit_guard :
  (forall st, entered st ->
     (List.length (hits st) <= 1000)%nat /\ cerr st = [])
  /\ (forall st hit,
        entered st -> intersect (ray_of o d st) = Some hit ->
        (1000 < List.length (hits (reached st hit)))%nat ->
        pass st = Return false (warn (reached st hit))
        /\ hits (warn (reached st hit)) = hits st ++ [hit]
        /\ cerr (warn (reached st hit))
           = [Str "Warning: Large number of hits..."; Endl; Str "[ "]
             ++ flat_map (fun h => [Int (embree.id0 h + 1); Str " "])
                  (hits st ++ [hit])
             ++ [Str "[ "]
             ++ flat_map (fun h => [Flt (embree.t h); Endl]) (hits st ++ [hit])
             ++ [Str "]"; Endl])
  /\ (forall fuel st result,
        intersectRay_hits intersect FLOAT_EPS fuel origin direction
        = Some (result, st) ->
        (List.length (hits st) <= 1001)%nat
        /\ ((List.length (hits st) <= 1000)%nat ->
            cerr st = [] /\ large_hits_warned st = false)
        /\ ((1000 < List.length (hits st))%nat ->
            result = false
            /\ cerr st
               = [Str "Warning: Large number of hits..."; Endl; Str "[ "]
                 ++ flat_map (fun h => [Int (embree.id0 h + 1); Str " "])
                      (hits st)
                 ++ [Str "[ "]
                 ++ flat_map (fun h => [Flt (embree.t h); Endl]) (hits st)
                 ++ [Str "]"; Endl]
            /\ cerr st <> []
            /\ (forall hit, In hit (hits st) ->
                  In (Int (embree.id0 hit + 1)) (cerr st)
                  /\ In (Flt (embree.t hit)) (cerr st))
            /\ exists last hit,
                entered last
                /\ intersect (ray_of o d last) = Some hit
                /\ hits st = hits last ++ [hit]
                /\ pass last = Return false st)).
Proof.
  split; [| split].
  - intros st He. destruct (entered_pending _ He) as (Hlen & _ & Hc). now split.
  - intros st hit He Hq Hover.
    destruct (entered_pending _ He) as (Hlen & Hw & Hc).
    rewrite (loop_body_hit _ _ _ _ _ _ Hq), Hw.
    apply Nat.ltb_lt in Hover as Hg. rewrite Hg. cbn [andb negb].
    rewrite after_hit_length in Hover.
    destruct (self_hit st hit) eqn:Hs; [lia |].
    assert (Hh : hits (warn (reached st hit)) = hits st ++ [hit])
      by (cbn [warn hits]; now apply after_hit_hits_record).
    repeat split.
    + f_equal. cbn [warn hits]. rewrite (after_hit_hits_record _ _ Hs).
      destruct (hits st); reflexivity.
    + exact Hh.
    + cbn [warn cerr hits].
      rewrite after_hit_cerr, Hc, (after_hit_hits_record _ _ Hs). reflexivity.
  - intros fuel st result Hl.
    destruct (run_entered _ _ _ _ (reachable_init _ _ _ _) Hl) as (last & He & Hb).
    pose proof (entered_pending _ He) as Hp.
    destruct (pending_return _ _ _ Hp Hb)
      as [(_ & -> & ->) | (hit & Hq & Hs & Hn & -> & ->)].
    + destruct Hp as (Hlen & Hw & Hc).
      cbn [incr_num_rays hits cerr large_hits_warned].
      split; [lia |]. split; [now split | lia].
    + assert (Hh : hits (warn (reached last hit)) = hits last ++ [hit]).
      { cbn [warn hits]. now apply after_hit_hits_record. }
      assert (Hlen : List.length (hits (warn (reached last hit))) = 1001%nat).
      { rewrite Hh, length_app, Hn. reflexivity. }
      assert (Hc : cerr (warn (reached last hit))
                   = warning_text (hits (warn (reached last hit)))).
      { destruct Hp as (_ & _ & Hc). cbn [warn cerr hits].
        now rewrite after_hit_cerr, Hc. }
      split; [lia |]. split; [lia |]. intros _.
      split; [reflexivity |]. split; [exact Hc |].
      rewrite Hc. split; [apply warning_text_items |].
      split; [apply warning_text_items |].
      exists last, hit. repeat split; assumption.
Qed.

(** C8: for a ray that strikes no triangle of the mesh, the multi-hit
    [intersectRay] returns with [hits] empty and [num_rays] equal to 1. *)
Theorem C8_miss_shoots_one_ray fuel :
  (forall near far,
      intersect {| embree.org := o; embree.dir := d;
                   embree.near := near; embree.far := far |} = None) ->
  (0 < fuel)%nat ->
  exists st,
    intersectRay_hits intersect FLOAT_EPS fuel origin direction
    = Some (true, st)
    /\ hits st = [] /\ num_rays st = 1.
Proof.
  intros Hmiss Hfuel. destruct fuel as [| fuel]; [lia |].
  exists (incr_num_rays init).
  unfold intersectRay_hits. cbn [loop].
  rewrite loop_body_miss by apply Hmiss.
  repeat split.
Qed.

Lemma pass_extends_hits st :
  exists rest, hits (state_of (pass st)) = hits st ++ rest.
Proof.
  destruct (intersect (ray_of o d st)) as [hit |] eqn:Hq.
  - destruct (state_of_hit _ FLOAT_EPS _ _ _ _ Hq) as (-> & _).
    unfold after_hit. destruct (self_hit st hit); cbn.
    + exists []. now rewrite app_nil_r.
    + now exists [hit].
  - rewrite (loop_body_miss _ _ _ _ _ Hq). exists []. cbn. now rewrite app_nil_r.
Qed.

Lemma run_extends_hits fuel : forall st b st',
  run fuel st = Some (b, st') -> exists rest, hits st' = hits st ++ rest.
Proof.
  induction fuel as [| fuel IH]; intros st b st' Hl; [discriminate |].
  cbn in Hl. destruct (pass_extends_hits st) as (r1 & Hr1).
  destruct (pass st) as [st1 | b1 st1] eqn:Hb; cbn in Hr1.
  - destruct (IH _ _ _ Hl) as (r2 & Hr2). exists (r1 ++ r2).
    now rewrite Hr2, Hr1, app_assoc.
  - injection Hl as <- <-. now exists r1.
Qed.

(** C4, amended: at the start of every multi-hit traversal the lower bound
    is exactly 0, and the first ray is shot with [near = 0].  A first hit
    with [t <= 0] is discarded by the self-hit test and the traversal goes
    on from the bound [0 + eps]; a first hit with [t > 0], however small,
    on a triangle id other than -1 is recorded. *)
Theorem C4_traversal_starts_at_zero :
  min_t init = S754_zero false
  /\ embree.near (ray_of o d init) = S754_zero false
  /\ (forall hit,
        intersect (ray_of o d init) = Some hit ->
        Double.leb (float_to_double (embree.t hit)) embree.zero = true ->
        exists st,
          pass init = Continue st
          /\ hits st = []
          /\ min_t st
             = Double.add embree.zero
                 (Double.mul (pow2 0) (float_to_double FLOAT_EPS)))
  /\ (forall hit,
        intersect (ray_of o d init) = Some hit ->
        embree.id0 hit <> -1 ->
        Double.leb (float_to_double (embree.t hit)) embree.zero = false ->
        pass init = Continue (reached init hit)
        /\ hits (reached init hit) = [hit]).
Proof.
  split; [reflexivity |]. split; [reflexivity |]. split.
  - intros hit Hq Ht.
    assert (Hs : self_hit init hit = true).
    { unfold self_hit. cbn [last_id0 min_t init]. rewrite Ht. apply orb_true_r. }
    exists (reached init hit).
    rewrite (loop_body_hit _ _ _ _ _ _ Hq).
    unfold after_hit. rewrite Hs. repeat split.
  - intros hit Hq Hid Ht.
    assert (Hs : self_hit init hit = false).
    { unfold self_hit. cbn [last_id0 min_t init]. rewrite Ht.
      apply Z.eqb_neq in Hid. now rewrite Hid. }
    rewrite (loop_body_hit _ _ _ _ _ _ Hq).
    unfold after_hit. rewrite Hs. repeat split.
Qed.

End Traversal.

(** * Traversals over a primitive that keeps to the interval of the ray *)

Lemma SFcompare_some x y :
  x <> S754_nan -> y <> S754_nan -> exists c, SFcompare x y = Some c.
Proof.
  destruct x, y; intros Hx Hy; try congruence; cbn; eauto.
Qed.

Lemma not_leb_ltb x y :
  x <> S754_nan -> y <> S754_nan -> SFleb x y = false -> SFltb y x = true.
Proof.
  intros Hx Hy. unfold SFleb, SFltb. rewrite (SFcompare_swap x y).
  destruct (SFcompare_some x y Hx Hy) as (c & ->). destruct c; cbn; congruence.
Qed.

Lemma signed_not_nan s x : signed s x -> x <> S754_nan.
Proof. intros []; discriminate. Qed.

Lemma nonneg_not_nan x : nonneg x -> x <> S754_nan.
Proof. intros H ->. discriminate H. Qed.

Lemma float_to_double_not_nan x :
  x <> S754_nan -> float_to_double x <> S754_nan.
Proof.
  destruct x as [s | s | | s m e]; cbn [float_to_double]; try congruence.
  intros _. apply (signed_not_nan s), binary_normalize_signed.
Qed.

Lemma float_to_double_valid x : Double.valid (float_to_double x) = true.
Proof.
  destruct x as [s | s | | s m e]; try reflexivity.
  apply binary_normalize_valid. reflexivity.
Qed.

Lemma in_interval_near ray hit :
  in_interval ray hit = true -> escaped (embree.near ray) = false.
Proof.
  unfold in_interval, Float.leb, Float.ltb, SFleb, SFltb.
  destruct (embree.near ray) as [s | [] | | s m e]; try reflexivity; cbn.
  - destruct (embree.t hit) as [s' | [] | | s' m' e']; cbn; try discriminate.
    destruct (embree.far ray) as [s'' | [] | | [] m'' e'']; cbn; discriminate.
  - destruct (embree.t hit); discriminate.
Qed.

Lemma in_interval_not_nan ray hit :
  in_interval ray hit = true -> embree.t hit <> S754_nan.
Proof.
  unfold in_interval, Float.leb, SFleb. intros H E. rewrite E in H.
  destruct (embree.near ray); discriminate.
Qed.

Lemma double_to_float_escaped x :
  escaped x = true -> escaped (double_to_float x) = true.
Proof. destruct x as [s | [] | | s m e]; cbn; congruence. Qed.

Lemma add_infinity_escaped x y :
  escaped y = true -> escaped (Double.add x y) = true.
Proof.
  destruct y as [s | [] | | s m e]; try discriminate; intros _;
    destruct x as [s' | [] | | s' m' e']; reflexivity.
Qed.

Lemma positive_float_cases x :
  Float.ltb embree.zero x = true ->
  x = S754_infinity false \/ exists m e, x = S754_finite false m e.
Proof.
  destruct x as [s | [] | | [] m e]; cbn; try discriminate; eauto.
Qed.

Lemma mul_infinity_escaped y :
  signed false y -> escaped (Double.mul (S754_infinity false) y) = true.
Proof. intros []; reflexivity. Qed.

Lemma float_to_double_signed x :
  Float.ltb embree.zero x = true -> signed false (float_to_double x).
Proof.
  intros Hx. destruct (positive_float_cases x Hx) as [-> | (m & e & ->)].
  - constructor.
  - apply (binary_normalize_signed Double.prec Double.emax false m e).
Qed.

Lemma pow2_overflow k : (1024 <= k)%N -> pow2 k = S754_infinity false.
Proof.
  intros Hk. unfold pow2.
  destruct (Z.leb_spec (Z.of_N k) 1023); [lia | reflexivity].
Qed.

(** The double of a positive float of the format is positive. *)
Lemma float_to_double_positive x :
  Float.valid x = true -> Float.ltb embree.zero x = true ->
  float_to_double x = S754_infinity false
  \/ exists m e, float_to_double x = S754_finite false m e.
Proof.
  intros Vx Hx. destruct (positive_float_cases x Hx) as [-> | (m & e & ->)].
  - now left.
  - cbn [float_to_double cond_Zopp binary_normalize].
    pose proof (binary_round_spec Double.prec Double.emax ltac:(reflexivity)
                  false m e) as H.
    destruct (bounded_canonical Float.prec Float.emax m e Vx) as (_ & He).
    destruct (binary_round Double.prec Double.emax false m e) as [s' | s' | | s' m' e'].
    + destruct H as (_ & H). exfalso. revert He H.
      unfold emin, Float.prec, Float.emax, Double.prec, Double.emax. lia.
    + left. now subst s'.
    + contradiction.
    + right. destruct H as (-> & _). eauto.
Qed.

(** The escape [pow(2.0,self_hits)*eps] is a non-negative double. *)
Lemma escape_nonneg k x :
  Float.valid x = true -> Float.ltb embree.zero x = true ->
  Double.valid (Double.mul (pow2 k) (float_to_double x)) = true
  /\ nonneg (Double.mul (pow2 k) (float_to_double x)).
Proof.
  intros Vx Hx. unfold pow2.
  destruct (float_to_double_positive x Vx Hx) as [-> | (m & e & ->)];
    destruct (Z.of_N k <=? 1023); try (split; reflexivity).
  apply SFmul_full_precision; reflexivity.
Qed.

Lemma StronglySorted_snoc {A} (R : A -> A -> Prop) l x :
  StronglySorted R l -> Forall (fun a => R a x) l -> StronglySorted R (l ++ [x]).
Proof.
  induction 1 as [| a l Hs IH Ha]; intros Hx; cbn.
  - repeat constructor.
  - inversion Hx as [| ? ? Hax Hlx]; subst. constructor; [now apply IH |].
    apply Forall_app. split; [exact Ha | now constructor].
Qed.


Section Contract.

Variable intersect : embree.Ray -> option embree.Hit.
Variable FLOAT_EPS : float.
Variables origin direction : RowVector3.

Local Abbreviation o := (toVec3f origin).
Local Abbreviation d := (toVec3f direction).
Local Abbreviation pass := (loop_body intersect FLOAT_EPS o d).
Local Abbreviation run := (fun fuel => loop intersect FLOAT_EPS fuel o d).
Local Abbreviation reached := (after_hit FLOAT_EPS).
Local Abbreviation entered := (reachable intersect FLOAT_EPS o d).

(** The primitive reports hits within the interval of the ray only. *)
Hypothesis intersect_in_interval :
  forall ray hit, intersect ray = Some hit -> in_interval ray hit = true.

(** [FLOAT_EPS] is a positive float. *)
Hypothesis FLOAT_EPS_valid : Float.valid FLOAT_EPS = true.
Hypothesis FLOAT_EPS_positive : Float.ltb embree.zero FLOAT_EPS = true.

Lemma continue_reached st st' :
  pass st = Continue st' ->
  exists hit, intersect (ray_of o d st) = Some hit /\ st' = reached st hit.
Proof.
  intros Hb. destruct (intersect (ray_of o d st)) as [hit |] eqn:Hq.
  - exists hit. split; [reflexivity |].
    rewrite (loop_body_hit _ _ _ _ _ _ Hq) in Hb.
    destruct (_ && _); congruence.
  - rewrite (loop_body_miss _ _ _ _ _ Hq) in Hb. discriminate.
Qed.

(** ** Termination *)

Lemma hit_not_escaped st hit :
  intersect (ray_of o d st) = Some hit -> escaped (min_t st) = false.
Proof.
  intros Hq. apply intersect_in_interval, in_interval_near in Hq.
  destruct (escaped (min_t st)) eqn:E; [| reflexivity].
  apply double_to_float_escaped in E. cbn in Hq. congruence.
Qed.

Lemma pass_decreases st st' :
  pending st -> bounded_self_hits st -> pass st = Continue st' ->
  bounded_self_hits st' /\ (passes_left st' < passes_left st)%nat.
Proof.
  intros Hp Hk Hb.
  pose proof (pending_continue _ _ _ _ _ _ Hp Hb) as (Hlen' & _).
  destruct (continue_reached _ _ Hb) as (hit & Hq & ->).
  pose proof (hit_not_escaped _ _ Hq) as Hne.
  assert (Hle : (self_hits st <= 1024)%N).
  { destruct (N.le_gt_cases 1025 (self_hits st)) as [H | H]; [| lia].
    apply Hk in H. congruence. }
  unfold bounded_self_hits, passes_left.
  rewrite after_hit_length in *. unfold after_hit.
  destruct (self_hit st hit) eqn:Hs;
    cbn [set_last_id0 advance record self_hits min_t hits incr_num_rays].
  - split; [| lia]. intros H.
    apply add_infinity_escaped. unfold t_push.
    rewrite pow2_overflow by (cbn [self_hits incr_num_rays]; lia).
    apply mul_infinity_escaped, float_to_double_signed, FLOAT_EPS_positive.
  - split; lia.
Qed.

Lemma run_terminates n : forall st,
  pending st -> bounded_self_hits st -> (passes_left st < n)%nat ->
  exists b st',
    run n st = Some (b, st') /\ num_rays st' <= num_rays st + Z.of_nat n.
Proof.
  induction n as [| n IH]; intros st Hp Hk Hn; [lia |].
  cbn [loop]. destruct (pass st) as [st1 | b st1] eqn:Hb.
  - destruct (pass_decreases _ _ Hp Hk Hb) as (Hk1 & Hlt).
    destruct (IH st1) as (b & st' & Hr & Hrays);
      [now apply (pending_continue _ _ _ _ _ _ Hp Hb) | exact Hk1 | lia |].
    exists b, st'. split; [exact Hr |].
    destruct (continue_reached _ _ Hb) as (hit & Hq & ->).
    assert (num_rays (reached st hit) = num_rays st + 1)
      by (unfold after_hit; destruct (self_hit st hit); reflexivity).
    lia.
  - exists b, st1. split; [reflexivity |].
    destruct (intersect (ray_of o d st)) as [hit |] eqn:Hq.
    + rewrite (loop_body_hit _ _ _ _ _ _ Hq) in Hb.
      destruct (_ && _); [| discriminate]. injection Hb as _ <-.
      cbn [warn num_rays]. unfold after_hit.
      destruct (self_hit st hit); cbn; lia.
    + rewrite (loop_body_miss _ _ _ _ _ Hq) in Hb. injection Hb as _ <-.
      cbn. lia.
Qed.

(** ** The bound and the recorded hits *)

Lemma genuine_hit_raises_bound st hit :
  intersect (ray_of o d st) = Some hit -> self_hit st hit = false ->
  Double.ltb (min_t st) (float_to_double (embree.t hit)) = true.
Proof.
  intros Hq Hs. pose proof (hit_not_escaped _ _ Hq) as Hne.
  apply intersect_in_interval, in_interval_not_nan in Hq.
  apply orb_false_iff in Hs as (_ & Hs).
  apply not_leb_ltb; [| | exact Hs].
  - now apply float_to_double_not_nan.
  - intros E. rewrite E in Hne. discriminate.
Qed.

Lemma self_hit_keeps_bound st :
  ordered st ->
  Double.valid (Double.add (min_t st) (t_push FLOAT_EPS st)) = true
  /\ nonneg (Double.add (min_t st) (t_push FLOAT_EPS st))
  /\ Double.leb (min_t st) (Double.add (min_t st) (t_push FLOAT_EPS st)) = true.
Proof.
  intros (Hv & Hn & _).
  destruct (escape_nonneg (self_hits st) FLOAT_EPS FLOAT_EPS_valid FLOAT_EPS_positive)
    as (Hpv & Hpn).
  apply (SFadd_nonneg_mono Double.prec Double.emax); try assumption. reflexivity.
Qed.

Lemma ordered_init : ordered init.
Proof. repeat split; constructor. Qed.

Lemma ordered_reached st hit :
  ordered st -> intersect (ray_of o d st) = Some hit ->
  ordered (reached st hit).
Proof.
  intros Ho Hq. pose proof Ho as (Hv & Hn & Hall & Hsorted).
  unfold ordered, after_hit.
  destruct (self_hit st hit) eqn:Hs;
    cbn [set_last_id0 advance record min_t hits incr_num_rays].
  - destruct (self_hit_keeps_bound st Ho) as (Hv' & Hn' & Hle).
    repeat split; try assumption.
    eapply Forall_impl; [| exact Hall]. cbn. intros a Ha.
    exact (SFleb_trans _ _ _ Ha Hle).
  - pose proof (genuine_hit_raises_bound _ _ Hq Hs) as Hlt.
    assert (Hbefore : Forall (fun a => t_lt a hit) (hits st)).
    { eapply Forall_impl; [| exact Hall]. cbn. intros a Ha.
      exact (SFleb_ltb_trans _ _ _ Ha Hlt). }
    repeat split.
    + apply float_to_double_valid.
    + apply SFltb_leb. exact (SFleb_ltb_trans _ _ _ Hn Hlt).
    + apply Forall_app. split.
      * eapply Forall_impl; [| exact Hbefore]. cbn. intros a Ha.
        now apply SFltb_leb.
      * constructor; [| constructor]. apply SFleb_refl.
        apply float_to_double_not_nan.
        now apply intersect_in_interval, in_interval_not_nan in Hq.
    + now apply StronglySorted_snoc.
Qed.

Lemma entered_ordered st : entered st -> ordered st.
Proof.
  induction 1 as [| st st' _ IH Hb]; [apply ordered_init |].
  destruct (continue_reached _ _ Hb) as (hit & Hq & ->).
  now apply ordered_reached.
Qed.

Lemma entered_answered st :
  entered st -> Forall (answered intersect o d) (hits st).
Proof.
  induction 1 as [| st st' _ IH Hb]; [constructor |].
  destruct (continue_reached _ _ Hb) as (hit & Hq & ->).
  unfold after_hit. destruct (self_hit st hit); cbn; [exact IH |].
  apply Forall_app. split; [exact IH |]. constructor; [| constructor].
  now exists (double_to_float (min_t st)), embree.inf.
Qed.

(** The state a traversal ends in holds the hits of an entered state, or
    those of an entered state and the hit of its last query. *)
Lemma final_hits fuel st result :
  run fuel init = Some (result, st) ->
  ordered st /\ Forall (answered intersect o d) (hits st).
Proof.
  intros Hl.
  destruct (run_entered _ _ _ _ _ _ _ _ (reachable_init _ _ _ _) Hl) as (last & He & Hb).
  pose proof (entered_ordered _ He) as Ho.
  pose proof (entered_answered _ He) as Ha.
  destruct (pending_return _ _ _ _ _ _ _ (entered_pending _ _ _ _ _ He) Hb)
    as [(_ & -> & _) | (hit & Hq & Hs & _ & -> & _)].
  - split; assumption.
  - split.
    + exact (ordered_reached _ _ Ho Hq).
    + cbn [warn hits]. unfold after_hit. rewrite Hs. cbn.
      apply Forall_app. split; [exact Ha |]. constructor; [| constructor].
      now exists (double_to_float (min_t last)), embree.inf.
Qed.

(** C5, amended: in every pass whose query returns a hit the lower bound
    does not decrease.  A recorded hit raises it strictly, to the hit's [t];
    a self hit replaces it by [min_t + pow(2.0,self_hits)*eps] in double
    arithmetic, which is not below [min_t] and need not be above it.  The
    escape doubles with every consecutive self hit and is +infinity at the
    1025th, so a traversal over a primitive that keeps to the interval of
    the ray returns after at most 1001 * 1026 rays. *)
Theorem C5_bound_advances_and_loop_ends :
  (forall st hit,
      entered st -> intersect (ray_of o d st) = Some hit ->
      if self_hit st hit
      then min_t (state_of (pass st))
           = Double.add (min_t st) (t_push FLOAT_EPS st)
           /\ Double.leb (min_t st) (min_t (state_of (pass st))) = true
      else min_t (state_of (pass st)) = float_to_double (embree.t hit)
           /\ Double.ltb (min_t st) (min_t (state_of (pass st))) = true)
  /\ exists result st,
      intersectRay_hits intersect FLOAT_EPS max_rays origin direction
      = Some (result, st)
      /\ num_rays st <= Z.of_nat max_rays.
Proof.
  split.
  - intros st hit He Hq.
    destruct (state_of_hit _ FLOAT_EPS _ _ _ _ Hq) as (_ & -> & _).
    unfold after_hit. destruct (self_hit st hit) eqn:Hs; cbn; split;
      try reflexivity.
    + destruct (self_hit_keeps_bound st (entered_ordered _ He)) as (_ & _ & Hle).
      exact Hle.
    + now apply genuine_hit_raises_bound.
  - destruct (run_terminates max_rays init pending_init) as (b & st & Hr & Hn).
    + intros H. cbn in H. lia.
    + unfold passes_left, max_rays. cbn [hits self_hits init List.length N.to_nat].
      lia.
    + exists b, st. split; [exact Hr |]. cbn [num_rays init] in Hn. lia.
Qed.

(** ** The answers between two recorded hits *)





End Contract.
(** * The claims on concrete scenes *)

(** C1 on the planes of the spec's scenario: the second pass meets the plane
    at t = 3 again. *)
Lemma C1_witness :
  hits (state_of (loop_body (nearest scene_planes) FLOAT_EPS_default
                    (toVec3f origin_above) (toVec3f direction_down)
                    planes_after_first_pass))
  = hits planes_after_first_pass
  /\ min_t (state_of (loop_body (nearest scene_planes) FLOAT_EPS_default
                        (toVec3f origin_above) (toVec3f direction_down)
                        planes_after_first_pass))
     = Double.add (min_t planes_after_first_pass)
         (Double.mul (pow2 (self_hits planes_after_first_pass))
            (float_to_double FLOAT_EPS_default))
  /\ self_hits (state_of (loop_body (nearest scene_planes) FLOAT_EPS_default
                            (toVec3f origin_above) (toVec3f direction_down)
                            planes_after_first_pass))
     = (self_hits planes_after_first_pass + 1)%N.
Proof.
  apply (C1_self_hit_advances (nearest scene_planes) FLOAT_EPS_default
           (toVec3f origin_above) (toVec3f direction_down)
           planes_after_first_pass (hit_at 4 (Float.of_Z 3))).
  - vm_compute. reflexivity.
  - left. vm_compute. reflexivity.
Defined.

(** C10 on the same pass. *)
Lemma C10_witness :
  last_id0 (state_of (loop_body (nearest scene_planes) FLOAT_EPS_default
                        (toVec3f origin_above) (toVec3f direction_down)
                        planes_after_first_pass))
  = embree.id0 (hit_at 4 (Float.of_Z 3))
  /\ (self_hit planes_after_first_pass (hit_at 4 (Float.of_Z 3)) = true ->
      hits (state_of (loop_body (nearest scene_planes) FLOAT_EPS_default
                        (toVec3f origin_above) (toVec3f direction_down)
                        planes_after_first_pass))
      = hits planes_after_first_pass
      /\ forall next,
          self_hit (state_of (loop_body (nearest scene_planes) FLOAT_EPS_default
                                (toVec3f origin_above) (toVec3f direction_down)
                                planes_after_first_pass)) next
          = (embree.id0 next =? embree.id0 (hit_at 4 (Float.of_Z 3)))
            || Double.leb (float_to_double (embree.t next))
                 (min_t (state_of (loop_body (nearest scene_planes) FLOAT_EPS_default
                                      (toVec3f origin_above) (toVec3f direction_down)
                                      planes_after_first_pass)))).
Proof.
  apply (C10_last_id0_follows_every_hit (nearest scene_planes) FLOAT_EPS_default
           (toVec3f origin_above) (toVec3f direction_down)
           planes_after_first_pass (hit_at 4 (Float.of_Z 3))).
  vm_compute. reflexivity.
Defined.

(** C2 on the planes of the spec's scenario: three hits, result [false]. *)
Lemma C2_witness :
  (false = true <-> hits planes_final = [])
  /\ (large_hits_warned planes_final = true -> false = false)
  /\ (hits planes_final <> [] -> false = false).
Proof.
  apply (C2_returns_true_iff_no_hit (nearest scene_planes) FLOAT_EPS_default
           origin_above direction_down 10 planes_final false).
  vm_compute. reflexivity.
Defined.

(** C7 on a row of 1002 triangles: the traversal stops at the 1001st. *)
Lemma C7_witness :
  (List.length (hits many_final) <= 1001)%nat
  /\ ((List.length (hits many_final) <= 1000)%nat ->
      cerr many_final = [] /\ large_hits_warned many_final = false)
  /\ ((1000 < List.length (hits many_final))%nat ->
      false = false
      /\ cerr many_final
         = [Str "Warning: Large number of hits..."; Endl; Str "[ "]
           ++ flat_map (fun h => [Int (embree.id0 h + 1); Str " "])
                (hits many_final)
           ++ [Str "[ "]
           ++ flat_map (fun h => [Flt (embree.t h); Endl]) (hits many_final)
           ++ [Str "]"; Endl]
      /\ cerr many_final <> []
      /\ (forall hit, In hit (hits many_final) ->
            In (Int (embree.id0 hit + 1)) (cerr many_final)
            /\ In (Flt (embree.t hit)) (cerr many_final))
      /\ exists last hit,
          reachable (nearest scene_many) FLOAT_EPS_default
            (toVec3f origin_above) (toVec3f direction_down) last
          /\ nearest scene_many
               (ray_of (toVec3f origin_above) (toVec3f direction_down) last)
             = Some hit
          /\ hits many_final = hits last ++ [hit]
          /\ loop_body (nearest scene_many) FLOAT_EPS_default
               (toVec3f origin_above) (toVec3f direction_down) last
             = Return false many_final).
Proof.
  apply (proj2 (proj2 (C7_large_hit_guard (nearest scene_many) FLOAT_EPS_default
                         origin_above direction_down))
           3000%nat many_final false).
  vm_compute. reflexivity.
Defined.

(** C8 on the empty scene. *)
Lemma C8_witness :
  exists st,
    intersectRay_hits (nearest scene_empty) FLOAT_EPS_default 1
      origin_above direction_down
    = Some (true, st)
    /\ hits st = [] /\ num_rays st = 1.
Proof.
  apply (C8_miss_shoots_one_ray (nearest scene_empty) FLOAT_EPS_default
           origin_above direction_down 1).
  - intros near far. reflexivity.
  - lia.
Defined.

(** C3 fails on a triangle at t = 2^-30: the single-hit query, which starts
    at 1e-4, misses it, and the multi-hit traversal reports it. *)
Lemma C3_counterexample :
  intersectRay (nearest scene_grazing) origin_above direction_down = None
  /\ exists st,
      intersectRay_hits (nearest scene_grazing) FLOAT_EPS_default 3
        origin_above direction_down
      = Some (false, st)
      /\ hits st = scene_grazing.
Proof.
  split; [vm_compute; reflexivity |].
  eexists. split; vm_compute; reflexivity.
Qed.

(** C4 fails: the traversal starts from the bound 0, which is not positive,
    and a triangle struck at t = 2^-30 is reported. *)
Lemma C4_counterexample :
  min_t init = S754_zero false
  /\ Double.ltb (S754_zero false) (min_t init) = false
  /\ exists st,
      intersectRay_hits (nearest scene_grazing) FLOAT_EPS_default 3
        origin_above direction_down
      = Some (false, st)
      /\ hits st
         = [hit_at 0 (Float.div (Float.of_Z 1) (Float.of_Z (2 ^ 30)))].
Proof.
  split; [reflexivity |]. split; [reflexivity |].
  eexists. split; vm_compute; reflexivity.
Qed.

(** C5 fails on a triangle at t = 10^10: the second pass meets it again and
    adds the escape 1e-7 to the bound 10^10, which leaves the bound as it
    was. *)
Lemma C5_counterexample :
  nearest scene_far
    (ray_of (toVec3f origin_above) (toVec3f direction_down)
       far_after_first_pass)
  = Some (hit_at 0 (Float.of_Z (10 ^ 10)))
  /\ min_t (state_of (loop_body (nearest scene_far) FLOAT_EPS_default
                        (toVec3f origin_above) (toVec3f direction_down)
                        far_after_first_pass))
     = min_t far_after_first_pass
  /\ Double.ltb (min_t far_after_first_pass)
       (min_t (state_of (loop_body (nearest scene_far) FLOAT_EPS_default
                           (toVec3f origin_above) (toVec3f direction_down)
                           far_after_first_pass)))
     = false.
Proof. repeat split; vm_compute; reflexivity. Qed.

(** C9: on the planes of the spec's scenario the second pass meets the plane
    at t = 3 again, takes the self-hit branch, and evaluates
    [assert(hit.t<1)] with [hit.t = 3]. *)
Theorem C9_sanity_check_fails_on_planes :
  nearest scene_planes
    (ray_of (toVec3f origin_above) (toVec3f direction_down)
       planes_after_first_pass)
  = Some (hit_at 4 (Float.of_Z 3))
  /\ self_hit planes_after_first_pass (hit_at 4 (Float.of_Z 3)) = true
  /\ Float.ltb (embree.t (hit_at 4 (Float.of_Z 3))) embree.one = false
  /\ sanity planes_final = false.
Proof. repeat split; vm_compute; reflexivity. Qed.

(** ** The primitive over a scene keeps to the interval *)

Lemma nearest_In scene ray hit : nearest scene ray = Some hit -> In hit scene.
Proof.
  induction scene as [| h scene IH]; cbn; [discriminate |].
  destruct (in_interval ray h).
  - destruct (nearest scene ray) as [b |].
    + destruct (Float.ltb (embree.t b) (embree.t h)); intros [= <-]; auto.
    + intros [= <-]. auto.
  - auto.
Qed.

Lemma nearest_in_interval scene ray hit :
  nearest scene ray = Some hit -> in_interval ray hit = true.
Proof.
  induction scene as [| h scene IH]; cbn; [discriminate |].
  destruct (in_interval ray h) eqn:Hh.
  - destruct (nearest scene ray) as [b |].
    + destruct (Float.ltb (embree.t b) (embree.t h)); intros [= <-]; auto.
    + now intros [= <-].
  - auto.
Qed.


(** The amended C5 on the planes of the spec's scenario. *)
Lemma C5_witness :
  (forall st hit,
      reachable (nearest scene_planes) FLOAT_EPS_default
        (toVec3f origin_above) (toVec3f direction_down) st ->
      nearest scene_planes
        (ray_of (toVec3f origin_above) (toVec3f direction_down) st)
      = Some hit ->
      if self_hit st hit
      then min_t (state_of (loop_body (nearest scene_planes) FLOAT_EPS_default
                              (toVec3f origin_above) (toVec3f direction_down) st))
           = Double.add (min_t st) (t_push FLOAT_EPS_default st)
           /\ Double.leb (min_t st)
                (min_t (state_of (loop_body (nearest scene_planes) FLOAT_EPS_default
                                    (toVec3f origin_above) (toVec3f direction_down) st)))
              = true
      else min_t (state_of (loop_body (nearest scene_planes) FLOAT_EPS_default
                              (toVec3f origin_above) (toVec3f direction_down) st))
           = float_to_double (embree.t hit)
           /\ Double.ltb (min_t st)
                (min_t (state_of (loop_body (nearest scene_planes) FLOAT_EPS_default
                                    (toVec3f origin_above) (toVec3f direction_down) st)))
              = true)
  /\ exists result st,
      intersectRay_hits (nearest scene_planes) FLOAT_EPS_default max_rays
        origin_above direction_down
      = Some (result, st)
      /\ num_rays st <= Z.of_nat max_rays.
Proof.
  apply (C5_bound_advances_and_loop_ends (nearest scene_planes) FLOAT_EPS_default
           origin_above direction_down).
  - apply nearest_in_interval.
  - vm_compute. reflexivity.
  - vm_compute. reflexivity.
Defined.



(** * The constructor, the conversions and the cost of a traversal *)

(** ** Promotion to double and back *)

Lemma iter_pos_iter {A} (f : A -> A) p : forall x, iter_pos f p x = Pos.iter f x p.
Proof.
  induction p as [p IH | p IH |]; intros x; cbn.
  - rewrite !IH. now rewrite <- !Pos.iter_swap.
  - now rewrite !IH.
  - reflexivity.
Qed.

Lemma shr_exact k : forall m,
  iter_pos shr_1 k
    {| shr_m := Zpos (Pos.iter xO m k); shr_r := false; shr_s := false |}
  = {| shr_m := Zpos m; shr_r := false; shr_s := false |}.
Proof.
  intros m. rewrite iter_pos_iter.
  induction k as [| k IH] using Pos.peano_ind.
  - reflexivity.
  - rewrite Pos.iter_succ_r, (Pos.iter_succ k). cbn [shr_1 orb]. exact IH.
Qed.

Section Exact.

Variables prec emax : Z.

Lemma binary_round_aux_canonical s m e :
  fexp prec emax (Zpos (digits2_pos m) + e) = e ->
  e <= emax - prec ->
  binary_round_aux prec emax s (Zpos m) e loc_Exact = S754_finite s m e.
Proof.
  intros Hc He. unfold binary_round_aux, shr_fexp. cbn [Zdigits2 shr_record_of_loc].
  rewrite Hc, Z.sub_diag. cbn [shr shr_m loc_of_shr_record round_nearest_even Zdigits2 shr_record_of_loc].
  rewrite Hc, Z.sub_diag. cbn [shr shr_m].
  now destruct (Z.leb_spec e (emax - prec)); [| lia].
Qed.

End Exact.

Lemma float_to_double_exact s m e :
  bounded Float.prec Float.emax m e = true ->
  float_to_double (S754_finite s m e)
  = S754_finite s (Pos.iter xO m (Z.to_pos (53 - Zpos (digits2_pos m))))
      (Zpos (digits2_pos m) + e - 53)
  /\ 0 < 53 - Zpos (digits2_pos m).
Proof.
  intros Hb. pose proof Hb as Hb'.
  apply bounded_canonical in Hb as (Hc & Hmin).
  unfold bounded in Hb'. apply andb_true_iff in Hb' as (_ & Hmax). apply Z.leb_le in Hmax.
  unfold fexp, emin, Float.prec, Float.emax in *.
  assert (Hd : 0 < Zpos (digits2_pos m)) by lia.
  split; [| lia].
  assert (Hn : binary_normalize Double.prec Double.emax (cond_Zopp s (Zpos m)) e s
               = binary_round Double.prec Double.emax s m e) by (destruct s; reflexivity).
  cbn [float_to_double]. rewrite Hn. unfold binary_round, shl_align.
  replace (fexp Double.prec Double.emax (Zpos (digits2_pos m) + e) - e)
    with (Zneg (Z.to_pos (53 - Zpos (digits2_pos m))))
    by (unfold fexp, emin, Double.prec, Double.emax; lia).
  change (PosDef.Pos.iter xO m) with (Pos.iter xO m).
  replace (fexp Double.prec Double.emax (Zpos (digits2_pos m) + e))
    with (Zpos (digits2_pos m) + e - 53)
    by (unfold fexp, emin, Double.prec, Double.emax; lia).
  apply binary_round_aux_canonical.
  - assert (Hdig : Zpos (digits2_pos (Pos.iter xO m (Z.to_pos (53 - Zpos (digits2_pos m))))) = 53).
    { change (Zdigits2 (Zpos (Pos.iter xO m (Z.to_pos (53 - Zpos (digits2_pos m))))) = 53).
      rewrite iter_xO_pow2, Zdigits2_mul by lia. cbn [Zdigits2]. lia. }
    rewrite Hdig. unfold fexp, emin, Double.prec, Double.emax. lia.
  - unfold Double.prec, Double.emax. lia.
Qed.

(** A float is unchanged by the promotion to double and the cast back. *)
Lemma double_to_float_to_double x :
  Float.valid x = true -> double_to_float (float_to_double x) = x.
Proof.
  destruct x as [s | s | | s m e]; try reflexivity. intros Hb.
  cbn [Float.valid valid_binary] in Hb.
  destruct (float_to_double_exact s m e Hb) as (-> & Hk).
  pose proof Hb as Hb'.
  apply bounded_canonical in Hb as (Hc & Hmin).
  unfold bounded in Hb'. apply andb_true_iff in Hb' as (_ & Hmax). apply Z.leb_le in Hmax.
  set (k := Z.to_pos (53 - Zpos (digits2_pos m))).
  assert (Hkz : Zpos k = 53 - Zpos (digits2_pos m)) by (subst k; lia).
  assert (Hdig : Zpos (digits2_pos (Pos.iter xO m k)) = 53).
  { change (Zdigits2 (Zpos (Pos.iter xO m k)) = 53).
    rewrite iter_xO_pow2, Zdigits2_mul by lia. cbn [Zdigits2]. lia. }
  assert (Hn : forall z e', binary_normalize Float.prec Float.emax
                           (cond_Zopp s (Zpos z)) e' s
                         = binary_round Float.prec Float.emax s z e')
    by (destruct s; reflexivity).
  cbn [double_to_float]. rewrite Hn. unfold binary_round, shl_align.
  rewrite Hdig.
  replace (53 + (Zpos (digits2_pos m) + e - 53)) with (Zpos (digits2_pos m) + e) by lia.
  rewrite Hc.
  replace (e - (Zpos (digits2_pos m) + e - 53)) with (Zpos k) by lia.
  unfold binary_round_aux, shr_fexp. cbn [Zdigits2 shr_record_of_loc].
  rewrite Hdig.
  replace (53 + (Zpos (digits2_pos m) + e - 53)) with (Zpos (digits2_pos m) + e) by lia.
  rewrite Hc.
  replace (e - (Zpos (digits2_pos m) + e - 53)) with (Zpos k) by lia.
  cbn [shr]. rewrite shr_exact.
  cbn [shr_m loc_of_shr_record round_nearest_even Zdigits2 shr_record_of_loc].
  replace (Zpos (digits2_pos m) + e - 53 + Zpos k) with e by lia.
  rewrite Hc, Z.sub_diag. cbn [shr shr_m].
  now destruct (Z.leb_spec e (Float.emax - Float.prec)); [| lia].
Qed.

(** ** More on the order *)

Lemma SFltb_asym x y : SFltb x y = true -> SFltb y x = false.
Proof.
  intros H. destruct (SFltb y x) eqn:H'; [| reflexivity].
  keys. cbn in *. lia.
Qed.

Lemma SFltb_leb_trans x y z :
  SFltb x y = true -> SFleb y z = true -> SFltb x z = true.
Proof.
  intros H1 H2. keys. apply SFltb_key. do 2 eexists.
  repeat split; try eassumption. cbn in *. lia.
Qed.

Lemma not_ltb_leb x y :
  x <> S754_nan -> y <> S754_nan -> SFltb x y = false -> SFleb y x = true.
Proof.
  intros Hx Hy H. destruct (SFleb y x) eqn:E; [reflexivity |].
  apply not_leb_ltb in E; congruence.
Qed.

Lemma key_zero x : key x = Some (0, 0, 0) -> exists s, x = S754_zero s.
Proof.
  destruct x as [s | [] | | [] m e]; cbn; try discriminate; eauto.
Qed.

(** Numbers that compare equal are the same, up to the sign of zero. *)
Lemma SFleb_antisym x y :
  SFleb x y = true -> SFleb y x = true ->
  x = y \/ exists s s', x = S754_zero s /\ y = S754_zero s'.
Proof.
  intros H1 H2.
  apply SFleb_key in H1 as ([[a1 a2] a3] & [[b1 b2] b3] & Hx & Hy & H1).
  apply SFleb_key in H2 as ([[c1 c2] c3] & [[d1 d2] d3] & Hy' & Hx' & H2).
  rewrite Hx in Hx'. rewrite Hy in Hy'.
  injection Hx' as <- <- <-. injection Hy' as <- <- <-.
  assert (He : key x = key y)
    by (rewrite Hx, Hy; cbn in H1, H2; repeat f_equal; lia).
  clear - He.
  destruct x as [s | [] | | [] m e], y as [s' | [] | | [] m' e'];
    cbn in He; try discriminate; eauto; left; injection He; intros; f_equal; lia.
Qed.

Lemma float_to_double_eq x y :
  SFleb x y = true -> SFleb y x = true ->
  SFleb (float_to_double x) (float_to_double y) = true.
Proof.
  intros H1 H2. destruct (SFleb_antisym x y H1 H2) as [<- | (s & s' & -> & ->)].
  - apply SFleb_refl, float_to_double_not_nan. intros ->. discriminate.
  - reflexivity.
Qed.

(** ** The constructor *)

Lemma store_next {A} (done rest : block A) (cell : option A) (x : A) :
  store (done ++ cell :: rest) (List.length done) x
  = Some (done ++ Some x :: rest).
Proof.
  unfold store. rewrite length_app. cbn [List.length].
  destruct (Nat.ltb_spec (List.length done) (List.length done + S (List.length rest)));
    [| lia].
  f_equal. rewrite firstn_app, Nat.sub_diag, firstn_all. cbn [firstn].
  rewrite app_nil_r. f_equal.
  rewrite skipn_app, skipn_all2 by lia.
  replace (S (List.length done) - List.length done)%nat with 1%nat by lia.
  reflexivity.
Qed.

Lemma fill_vertices_spec rows : forall done,
  fill_vertices rows (done ++ repeat None (List.length rows)) (List.length done)
  = Some (done ++ map (fun row => Some (vertex_of row)) rows,
          (List.length done + List.length rows)%nat).
Proof.
  induction rows as [| row rows IH]; intros done; cbn [fill_vertices List.length repeat map].
  - now rewrite app_nil_r, Nat.add_0_r.
  - rewrite store_next.
    replace (done ++ Some (vertex_of row) :: repeat None (List.length rows))
      with ((done ++ [Some (vertex_of row)]) ++ repeat None (List.length rows))
      by now rewrite <- app_assoc.
    replace (S (List.length done)) with (List.length (done ++ [Some (vertex_of row)]))
      by (rewrite length_app; cbn; lia).
    rewrite IH, <- app_assoc, length_app. cbn. do 2 f_equal. lia.
Qed.

Lemma fill_triangles_spec rows : forall i done,
  exists filled,
    fill_triangles rows i (done ++ repeat None (List.length rows)) (List.length done)
    = Some (done ++ filled, (List.length done + List.length rows)%nat)
    /\ List.length filled = List.length rows
    /\ forall k row,
        nth_error rows k = Some row ->
        nth_error filled k = Some (Some (triangle_of (i + k) row)).
Proof.
  induction rows as [| row rows IH]; intros i done;
    cbn [fill_triangles List.length repeat].
  - exists []. rewrite app_nil_r, Nat.add_0_r. repeat split.
    intros [| k] r; discriminate.
  - rewrite store_next.
    replace (done ++ Some (triangle_of i row) :: repeat None (List.length rows))
      with ((done ++ [Some (triangle_of i row)]) ++ repeat None (List.length rows))
      by now rewrite <- app_assoc.
    replace (S (List.length done)) with (List.length (done ++ [Some (triangle_of i row)]))
      by (rewrite length_app; cbn; lia).
    destruct (IH (S i) (done ++ [Some (triangle_of i row)])) as (filled & -> & Hlen & Hnth).
    exists (Some (triangle_of i row) :: filled).
    rewrite <- app_assoc, length_app. cbn [List.length app]. split; [| split].
    + do 2 f_equal. lia.
    + now rewrite Hlen.
    + intros [| k] r Hr; cbn in *.
      * injection Hr as <-. now rewrite Nat.add_0_r.
      * rewrite (Hnth k r Hr). do 3 f_equal. lia.
Qed.

(** What the constructor hands to [rtcCreateAccel]: the cells of
    [triangles], by index. *)
Lemma build_triangles V F :
  exists b,
    build V F = Some b
    /\ numTriangles b = List.length F
    /\ List.length (triangles b) = List.length F
    /\ vertices b = map (fun row => Some (vertex_of row)) V
    /\ forall k,
        nth_error (triangles b) k
        = option_map (fun row => Some (triangle_of k row)) (nth_error F k).
Proof.
  unfold build, rtcMalloc.
  pose proof (fill_vertices_spec V []) as Hv.
  destruct (fill_triangles_spec F 0 []) as (filled & Hf & Hlen & Hnth).
  cbn [app List.length] in Hv, Hf. rewrite Hv, Hf.
  eexists. split; [reflexivity |]. cbn [numTriangles triangles vertices Nat.add].
  repeat split; try assumption.
  intros k. destruct (nth_error F k) as [row |] eqn:Hk; cbn [option_map].
  - now apply Hnth.
  - apply nth_error_None. apply nth_error_None in Hk. now rewrite Hlen.
Qed.

(** X1: the constructor never stores outside the two blocks it allocated,
    and fills them completely: on every [V] and [F] the build succeeds,
    [numVertices] and [numTriangles] end as the row counts, every cell of
    [vertices] holds the row of [V] cast to floats, and cell [i] of
    [triangles] holds row [i] of [F] with the id [i]. *)
Theorem build_fills_both_blocks V F :
  exists b,
    build V F = Some b
    /\ numVertices b = List.length V
    /\ numTriangles b = List.length F
    /\ vertices b = map (fun row => Some (vertex_of row)) V
    /\ List.length (triangles b) = List.length F
    /\ forall i row,
        nth_error F i = Some row ->
        nth_error (triangles b) i = Some (Some (triangle_of i row)).
Proof.
  unfold build, rtcMalloc.
  pose proof (fill_vertices_spec V []) as Hv.
  destruct (fill_triangles_spec F 0 []) as (filled & Hf & Hlen & Hnth).
  cbn [app List.length] in Hv, Hf. rewrite Hv, Hf.
  eexists. split; [reflexivity |]. cbn. repeat split; assumption.
Qed.

(** X2: the ids the constructor gives the triangles are the row indices of
    [F]: an id is that of a built triangle exactly when it lies in
    [0, #F), and no two cells carry the same id. *)
Theorem triangle_ids_are_row_indices V F :
  exists b,
    build V F = Some b
    /\ (forall id, build_id b id <-> 0 <= id < Z.of_nat (List.length F))
    /\ (forall i j ti tj,
          nth_error (triangles b) i = Some (Some ti) ->
          nth_error (triangles b) j = Some (Some tj) ->
          rtcore.id0 ti = rtcore.id0 tj -> i = j).
Proof.
  destruct (build_triangles V F) as (b & Hb & Hn & _ & _ & Hnth).
  exists b. split; [exact Hb |]. split.
  - intros id. unfold build_id. rewrite Hn. split.
    + intros (k & triangle & Hk & Hc & <-). rewrite Hnth in Hc.
      destruct (nth_error F k); [| discriminate].
      injection Hc as <-. cbn. lia.
    + intros Hid. exists (Z.to_nat id).
      destruct (nth_error F (Z.to_nat id)) as [row |] eqn:Hrow.
      * exists (triangle_of (Z.to_nat id) row). rewrite Hnth, Hrow.
        repeat split; [lia |]. cbn. lia.
      * apply nth_error_None in Hrow. lia.
  - intros i j ti tj Hi Hj Hid. rewrite Hnth in Hi, Hj.
    destruct (nth_error F i); [| discriminate].
    destruct (nth_error F j); [| discriminate].
    injection Hi as <-. injection Hj as <-. cbn in Hid. lia.
Qed.

(** X3: stacking face lists, as in the [F; fliplr(F)] the header advises
    for two-sided hits: the build over [F ++ G] has the vertices and the
    first triangles of the build over [F], followed by the triangles of the
    build over [G] with their ids moved up by the number of rows of [F]. *)
Theorem build_stacked_faces V F G :
  exists bF bG b,
    build V F = Some bF /\ build V G = Some bG /\ build V (F ++ G) = Some b
    /\ vertices b = vertices bF
    /\ numTriangles b = (numTriangles bF + numTriangles bG)%nat
    /\ firstn (numTriangles bF) (triangles b) = triangles bF
    /\ forall k triangle,
        nth_error (triangles bG) k = Some (Some triangle) ->
        nth_error (triangles b) (numTriangles bF + k)
        = Some (Some {| rtcore.v0 := rtcore.v0 triangle;
                        rtcore.v1 := rtcore.v1 triangle;
                        rtcore.v2 := rtcore.v2 triangle;
                        rtcore.id0 :=
                          rtcore.id0 triangle + Z.of_nat (numTriangles bF) |}).
Proof.
  destruct (build_triangles V F) as (bF & HbF & HnF & HlF & HvF & HF).
  destruct (build_triangles V G) as (bG & HbG & HnG & HlG & HvG & HG).
  destruct (build_triangles V (F ++ G)) as (b & Hb & Hn & Hl & Hv & H).
  exists bF, bG, b. repeat split; try assumption.
  - congruence.
  - rewrite Hn, length_app. lia.
  - apply nth_error_ext. intros k. rewrite HnF.
    rewrite nth_error_firstn.
    destruct (Nat.ltb_spec k (List.length F)) as [Hk | Hk].
    + rewrite H, HF, nth_error_app1 by exact Hk. reflexivity.
    + symmetry. apply nth_error_None. rewrite HlF. exact Hk.
  - intros k triangle Hk. rewrite HG in Hk. rewrite H, HnF.
    rewrite nth_error_app2 by lia.
    replace (List.length F + k - List.length F)%nat with k by lia.
    destruct (nth_error G k); [| discriminate].
    injection Hk as <-. unfold triangle_of. cbn [option_map rtcore.v0 rtcore.v1 rtcore.v2 rtcore.id0]. do 3 f_equal. lia.
Qed.

(** ** The rays of a traversal *)

Section Accounting.

Variable intersect : embree.Ray -> option embree.Hit.
Variable FLOAT_EPS : float.
Variables origin direction : RowVector3.

Local Abbreviation o := (toVec3f origin).
Local Abbreviation d := (toVec3f direction).
Local Abbreviation pass := (loop_body intersect FLOAT_EPS o d).
Local Abbreviation run := (fun fuel => loop intersect FLOAT_EPS fuel o d).
Local Abbreviation reached := (after_hit FLOAT_EPS).
Local Abbreviation entered := (reachable intersect FLOAT_EPS o d).

Lemma pass_num_rays st :
  num_rays (state_of (pass st)) = num_rays st + 1.
Proof.
  destruct (intersect (ray_of o d st)) as [hit |] eqn:Hq.
  - now destruct (state_of_hit _ FLOAT_EPS _ _ _ _ Hq) as (_ & _ & _ & _ & ->).
  - now rewrite (loop_body_miss _ _ _ _ _ Hq).
Qed.

(** The passes of a run: the fuel it needs is the number of rays it adds. *)
Lemma run_passes fuel : forall st0 b st,
  run fuel st0 = Some (b, st) ->
  exists n,
    (1 <= n <= fuel)%nat
    /\ num_rays st = num_rays st0 + Z.of_nat n
    /\ run n st0 = Some (b, st)
    /\ forall f, (f < n)%nat -> run f st0 = None.
Proof.
  induction fuel as [| fuel IH]; intros st0 b st Hl; [discriminate |].
  cbn [loop] in Hl. pose proof (pass_num_rays st0) as Hn.
  destruct (pass st0) as [st1 | b1 st1] eqn:Hb; cbn [state_of] in Hn.
  - destruct (IH _ _ _ Hl) as (n & Hle & Hrays & Hrun & Hmin).
    exists (S n). split; [lia |]. split; [lia |]. split.
    + cbn [loop]. now rewrite Hb.
    + intros [| f] Hf; [reflexivity |]. cbn [loop]. rewrite Hb. apply Hmin. lia.
  - injection Hl as <- <-. exists 1%nat. split; [lia |]. split; [lia |]. split.
    + cbn [loop]. now rewrite Hb.
    + intros f Hf. replace f with 0%nat by lia. reflexivity.
Qed.

Lemma entered_hits_cost st :
  entered st -> Z.of_nat (List.length (hits st)) <= num_rays st.
Proof.
  induction 1 as [| st st' _ IH Hb]; [cbn; lia |].
  pose proof (pass_num_rays st) as Hn. rewrite Hb in Hn. cbn [state_of] in Hn.
  destruct (continue_reached _ _ _ _ _ _ Hb) as (hit & Hq & ->).
  rewrite after_hit_length in *. destruct (self_hit st hit); lia.
Qed.

(** X6: [num_rays] counts the queries: a traversal that returns has made
    between 1 and [fuel] passes, [num_rays] is exactly the number of
    passes it needs (with that many it returns the same, with fewer it has
    not returned), and each reported hit has cost a ray, with one more ray
    for the final miss unless the large-hit return was taken. *)
Theorem num_rays_counts_the_queries fuel st result :
  intersectRay_hits intersect FLOAT_EPS fuel origin direction
  = Some (result, st) ->
  1 <= num_rays st <= Z.of_nat fuel
  /\ intersectRay_hits intersect FLOAT_EPS (Z.to_nat (num_rays st))
       origin direction
     = Some (result, st)
  /\ (forall less,
        Z.of_nat less < num_rays st ->
        intersectRay_hits intersect FLOAT_EPS less origin direction = None)
  /\ Z.of_nat (List.length (hits st))
     + (if large_hits_warned st then 0 else 1)
     <= num_rays st.
Proof.
  intros Hl. unfold intersectRay_hits in *.
  destruct (run_passes _ _ _ _ Hl) as (n & Hle & Hrays & Hrun & Hmin).
  cbn [num_rays init] in Hrays.
  replace (Z.to_nat (num_rays st)) with n by lia.
  split; [lia |]. split; [exact Hrun |]. split.
  - intros less Hless. apply Hmin. lia.
  - destruct (run_entered _ _ _ _ _ _ _ _ (reachable_init _ _ _ _) Hl)
      as (last & He & Hb).
    pose proof (entered_hits_cost _ He) as Hcost.
    pose proof (pass_num_rays last) as Hn. rewrite Hb in Hn. cbn [state_of] in Hn.
    destruct (pending_return _ _ _ _ _ _ _ (entered_pending _ _ _ _ _ He) Hb)
      as [(_ & -> & _) | (hit & _ & Hs & _ & -> & _)].
    + destruct (entered_pending _ _ _ _ _ He) as (_ & Hw & _).
      cbn [incr_num_rays large_hits_warned hits num_rays] in *. rewrite Hw. lia.
    + cbn [warn large_hits_warned hits num_rays] in *.
      rewrite after_hit_length, Hs. lia.
Qed.

Lemma final_answered fuel st result :
  run fuel init = Some (result, st) -> Forall (answered intersect o d) (hits st).
Proof.
  intros Hl.
  destruct (run_entered _ _ _ _ _ _ _ _ (reachable_init _ _ _ _) Hl)
    as (last & He & Hb).
  pose proof (entered_answered _ _ _ _ _ He) as Ha.
  destruct (pending_return _ _ _ _ _ _ _ (entered_pending _ _ _ _ _ He) Hb)
    as [(Hq & -> & _) | (hit & Hq & Hs & _ & -> & _)]; [exact Ha |].
  cbn [warn hits]. rewrite (after_hit_hits_record _ _ _ Hs).
  apply Forall_app. split; [exact Ha |]. constructor; [| constructor].
  now exists (double_to_float (min_t last)), embree.inf.
Qed.

(** X7: every reported hit is the answer of the structure to a query along
    the line of the ray, and unless the large-hit return was taken the
    traversal has ended on a miss of the ray from the final [min_t]. *)
Theorem hits_are_answers_and_last_ray_missed fuel st result :
  intersectRay_hits intersect FLOAT_EPS fuel origin direction
  = Some (result, st) ->
  Forall (answered intersect o d) (hits st)
  /\ (large_hits_warned st = false ->
      intersect {| embree.org := o; embree.dir := d;
                   embree.near := double_to_float (min_t st);
                   embree.far := embree.inf |} = None).
Proof.
  intros Hl.
  destruct (run_entered _ _ _ _ _ _ _ _ (reachable_init _ _ _ _) Hl)
    as (last & He & Hb).
  pose proof (entered_answered _ _ _ _ _ He) as Ha.
  destruct (pending_return _ _ _ _ _ _ _ (entered_pending _ _ _ _ _ He) Hb)
    as [(Hq & -> & _) | (hit & Hq & Hs & _ & -> & _)].
  - split; [exact Ha |]. intros _. exact Hq.
  - split; [| discriminate].
    cbn [warn hits]. rewrite (after_hit_hits_record _ _ _ Hs).
    apply Forall_app. split; [exact Ha |]. constructor; [| constructor].
    now exists (double_to_float (min_t last)), embree.inf.
Qed.

End Accounting.

(** ** Queries on a constructed intersector *)

Lemma In_combine_seq {A} (l : list A) : forall start n k cell,
  In (k, cell) (combine (seq start n) l) ->
  (start <= k < start + n)%nat /\ nth_error l (k - start) = Some cell.
Proof.
  induction l as [| x l IH]; intros start [| n] k cell Hin;
    cbn [seq combine] in Hin; try contradiction.
  destruct Hin as [Heq | Hin].
  - injection Heq as <- <-. rewrite Nat.sub_diag. split; [lia | reflexivity].
  - apply IH in Hin as (Hk & Hc). split; [lia |].
    replace (k - start)%nat with (S (k - S start)) by lia. exact Hc.
Qed.

Lemma stack_accel_hit triangles numTriangles vertices numVertices ray hit :
  stack_accel triangles numTriangles vertices numVertices ray = Some hit ->
  exists k triangle,
    (k < numTriangles)%nat
    /\ nth_error triangles k = Some (Some triangle)
    /\ rtcore.id0 triangle = embree.id0 hit.
Proof.
  unfold stack_accel, stack_scene. intros Hq.
  apply nearest_In, in_flat_map in Hq as ((k & cell) & Hin & Hhit).
  cbn [fst snd] in Hhit.
  destruct cell as [triangle |]; [| contradiction].
  destruct Hhit as [<- | []].
  apply In_combine_seq in Hin as (Hk & Hc).
  rewrite Nat.sub_0_r, nth_error_firstn in Hc.
  destruct (Nat.ltb_spec k numTriangles); [| discriminate].
  exists k, triangle. repeat split; assumption.
Qed.

Section Constructed.

Variable rtcCreateAccel : Accel.

(** A hit carries the id of one of the triangles the structure was built
    over. *)
Hypothesis hit_of_a_build_triangle :
  forall triangles numTriangles vertices numVertices ray hit,
    rtcCreateAccel triangles numTriangles vertices numVertices ray = Some hit ->
    exists k triangle,
      (k < numTriangles)%nat
      /\ nth_error triangles k = Some (Some triangle)
      /\ rtcore.id0 triangle = embree.id0 hit.

Lemma constructed_ids V F :
  exists intersect,
    constructed rtcCreateAccel V F = Some intersect
    /\ forall ray hit,
        intersect ray = Some hit ->
        0 <= embree.id0 hit < Z.of_nat (List.length F).
Proof.
  unfold constructed.
  destruct (build_triangles V F) as (b & -> & Hn & _ & _ & Hnth).
  eexists. split; [reflexivity |]. intros ray hit Hq.
  apply hit_of_a_build_triangle in Hq as (k & triangle & Hk & Hc & <-).
  rewrite Hnth in Hc. destruct (nth_error F k); [| discriminate].
  injection Hc as <-. cbn. lia.
Qed.

(** X4: when the structure reports only triangles it was built over, every
    hit of the three queries of an intersector constructed from [V] and
    [F] names a row of [F]: [0 <= hit.id0 < #F]; so no hit carries the
    initial [last_id0] of the traversal, -1. *)
Theorem hit_ids_are_rows_of_F V F :
  exists intersect,
    constructed rtcCreateAccel V F = Some intersect
    /\ (forall origin direction hit,
          intersectRay intersect origin direction = Some hit ->
          0 <= embree.id0 hit < Z.of_nat (List.length F))
    /\ (forall a ab hit,
          intersectSegment intersect a ab = Some hit ->
          0 <= embree.id0 hit < Z.of_nat (List.length F))
    /\ (forall FLOAT_EPS fuel origin direction result st,
          intersectRay_hits intersect FLOAT_EPS fuel origin direction
          = Some (result, st) ->
          Forall (fun hit =>
                    0 <= embree.id0 hit < Z.of_nat (List.length F)
                    /\ embree.id0 hit <> last_id0 init)
            (hits st)).
Proof.
  destruct (constructed_ids V F) as (intersect & Hc & Hid).
  exists intersect. split; [exact Hc |]. split; [| split].
  - intros origin direction hit. apply Hid.
  - intros a ab hit. apply Hid.
  - intros FLOAT_EPS fuel origin direction result st Hl.
    apply final_answered in Hl. revert Hl. apply Forall_impl.
    intros hit (near & far & Hq). apply Hid in Hq. cbn. lia.
Qed.

(** X5: an intersector constructed from an empty [F] answers every query
    with a miss, and the traversal returns [true] with no hit after one
    ray. *)
Theorem empty_mesh_misses V :
  exists intersect,
    constructed rtcCreateAccel V [] = Some intersect
    /\ (forall origin direction,
          intersectRay intersect origin direction = None)
    /\ (forall a ab, intersectSegment intersect a ab = None)
    /\ (forall FLOAT_EPS fuel origin direction,
          (0 < fuel)%nat ->
          exists st,
            intersectRay_hits intersect FLOAT_EPS fuel origin direction
            = Some (true, st)
            /\ hits st = [] /\ num_rays st = 1).
Proof.
  destruct (constructed_ids V []) as (intersect & Hc & Hid).
  assert (Hnone : forall ray, intersect ray = None).
  { intros ray. destruct (intersect ray) as [hit |] eqn:Hq; [| reflexivity].
    apply Hid in Hq. cbn in Hq. lia. }
  exists intersect. split; [exact Hc |]. split; [| split].
  - intros origin direction. apply Hnone.
  - intros a ab. apply Hnone.
  - intros FLOAT_EPS [| fuel] origin direction Hfuel; [lia |].
    eexists. unfold intersectRay_hits. cbn [loop].
    rewrite loop_body_miss by apply Hnone. repeat split.
Qed.

End Constructed.

(** ** Where the reported hits lie *)

Lemma positive_double_of_float x :
  Double.ltb embree.zero (float_to_double x) = true ->
  Float.ltb embree.zero x = true.
Proof.
  destruct x as [s | [] | | [] m e]; try (cbn; congruence).
  intros H.
  pose proof (binary_normalize_signed Double.prec Double.emax true m e) as Hs.
  cbn [float_to_double] in H.
  destruct Hs; discriminate.
Qed.

Section Ahead.

Variable intersect : embree.Ray -> option embree.Hit.
Variable FLOAT_EPS : float.
Variables origin direction : RowVector3.

Local Abbreviation o := (toVec3f origin).
Local Abbreviation d := (toVec3f direction).
Local Abbreviation pass := (loop_body intersect FLOAT_EPS o d).
Local Abbreviation run := (fun fuel => loop intersect FLOAT_EPS fuel o d).
Local Abbreviation reached := (after_hit FLOAT_EPS).
Local Abbreviation entered := (reachable intersect FLOAT_EPS o d).

(** The primitive reports hits within the interval of the ray only. *)
Hypothesis intersect_in_interval :
  forall ray hit, intersect ray = Some hit -> in_interval ray hit = true.

(** [FLOAT_EPS] is a positive float. *)
Hypothesis FLOAT_EPS_valid : Float.valid FLOAT_EPS = true.
Hypothesis FLOAT_EPS_positive : Float.ltb embree.zero FLOAT_EPS = true.

Lemma recorded_ahead st hit :
  entered st -> intersect (ray_of o d st) = Some hit ->
  self_hit st hit = false -> ahead hit.
Proof.
  intros He Hq Hs.
  destruct (entered_ordered _ _ _ _ intersect_in_interval FLOAT_EPS_valid
              FLOAT_EPS_positive _ He) as (_ & Hn & _).
  pose proof (genuine_hit_raises_bound _ _ _ intersect_in_interval _ _ Hq Hs) as Hlt.
  split.
  - apply positive_double_of_float. exact (SFleb_ltb_trans _ _ _ Hn Hlt).
  - apply intersect_in_interval in Hq. unfold in_interval in Hq.
    now apply andb_true_iff in Hq as (_ & Hq).
Qed.

Lemma entered_ahead st : entered st -> Forall ahead (hits st).
Proof.
  induction 1 as [| st st' He IH Hb]; [constructor |].
  destruct (continue_reached _ _ _ _ _ _ Hb) as (hit & Hq & ->).
  destruct (self_hit st hit) eqn:Hs.
  - now rewrite after_hit_hits_self.
  - rewrite after_hit_hits_record by exact Hs.
    apply Forall_app. split; [exact IH |].
    constructor; [| constructor]. exact (recorded_ahead _ _ He Hq Hs).
Qed.

(** X8: over a primitive that keeps to the interval of the ray, every
    reported hit lies ahead of the origin at a finite distance,
    [0 < hit.t < inf], and not beyond the final [min_t]: a triangle through
    the origin itself is never reported. *)
Theorem hits_lie_ahead_of_the_origin fuel st result :
  intersectRay_hits intersect FLOAT_EPS fuel origin direction
  = Some (result, st) ->
  Forall (fun hit =>
            Float.ltb embree.zero (embree.t hit) = true
            /\ Float.ltb (embree.t hit) embree.inf = true
            /\ Double.leb (float_to_double (embree.t hit)) (min_t st) = true)
    (hits st).
Proof.
  intros Hl.
  destruct (final_hits _ _ _ _ intersect_in_interval FLOAT_EPS_valid
              FLOAT_EPS_positive _ _ _ Hl) as ((_ & _ & Hle & _) & _).
  destruct (run_entered _ _ _ _ _ _ _ _ (reachable_init _ _ _ _) Hl)
    as (last & He & Hb).
  assert (Ha : Forall ahead (hits st)).
  { pose proof (entered_ahead _ He) as Ha.
    destruct (pending_return _ _ _ _ _ _ _ (entered_pending _ _ _ _ _ He) Hb)
      as [(_ & -> & _) | (hit & Hq & Hs & _ & -> & _)]; [exact Ha |].
    cbn [warn hits]. rewrite after_hit_hits_record by exact Hs.
    apply Forall_app. split; [exact Ha |].
    constructor; [| constructor]. exact (recorded_ahead _ _ He Hq Hs). }
  rewrite Forall_forall in *. intros hit Hin.
  destruct (Ha hit Hin) as (H0 & Hinf). auto.
Qed.

End Ahead.

(** ** The ray after a recorded hit *)

Section Next.

Variable intersect : embree.Ray -> option embree.Hit.
Variable FLOAT_EPS : float.
Variables o d : embree.Vec3f.

(** X9: the ray after a recorded hit starts exactly at that hit: a
    distance that is a float of the format goes through [min_t], a double,
    and back into the float [ray.near] unchanged. *)
Theorem next_ray_starts_at_the_hit st hit :
  intersect (ray_of o d st) = Some hit ->
  self_hit st hit = false ->
  Float.valid (embree.t hit) = true ->
  embree.near (ray_of o d (state_of (loop_body intersect FLOAT_EPS o d st)))
  = embree.t hit.
Proof.
  intros Hq Hs Hv. cbn [ray_of embree.near].
  destruct (state_of_hit _ FLOAT_EPS _ _ _ _ Hq) as (_ & -> & _).
  unfold after_hit. rewrite Hs. cbn [set_last_id0 record min_t].
  now apply double_to_float_to_double.
Qed.

End Next.

(** X10: [toVec3f] gives back the floats a point was made of: coordinates
    that are floats of the format promoted to double come through the casts
    unchanged. *)
Theorem toVec3f_of_floats a b c :
  Float.valid a = true -> Float.valid b = true -> Float.valid c = true ->
  toVec3f {| p0 := float_to_double a; p1 := float_to_double b;
             p2 := float_to_double c |}
  = {| embree.x := a; embree.y := b; embree.z := c |}.
Proof.
  intros Ha Hb Hc. unfold toVec3f. cbn [p0 p1 p2].
  now rewrite !double_to_float_to_double.
Qed.

(** ** The primitive over a scene reports the nearest hit of the interval *)

Lemma nearest_none scene ray :
  nearest scene ray = None ->
  forall hit, In hit scene -> in_interval ray hit = false.
Proof.
  induction scene as [| h scene IH]; cbn [nearest]; intros Hn hit [];
    destruct (in_interval ray h) eqn:Hh.
  - destruct (nearest scene ray) as [b |]; [| discriminate].
    destruct (Float.ltb _ _); discriminate.
  - now subst hit.
  - destruct (nearest scene ray) as [b |]; [| discriminate].
    destruct (Float.ltb _ _); discriminate.
  - now apply IH.
Qed.

Lemma nearest_least scene ray best :
  nearest scene ray = Some best ->
  forall hit, In hit scene -> in_interval ray hit = true ->
  Float.ltb (embree.t hit) (embree.t best) = false.
Proof.
  revert best. induction scene as [| h scene IH]; cbn [nearest];
    intros best Hn hit Hin Hi; [contradiction |].
  destruct (in_interval ray h) eqn:Hh.
  - destruct (nearest scene ray) as [b |] eqn:Hb.
    + pose proof (in_interval_not_nan _ _ Hh) as Nh.
      pose proof (in_interval_not_nan _ _ (nearest_in_interval _ _ _ Hb)) as Nb.
      destruct (Float.ltb (embree.t b) (embree.t h)) eqn:Hlt;
        injection Hn as <-; destruct Hin as [<- | Hin].
      * now apply SFltb_asym.
      * now apply (IH b).
      * apply SFltb_irrefl.
      * specialize (IH b eq_refl hit Hin Hi).
        destruct (Float.ltb (embree.t hit) (embree.t h)) eqn:E; [| reflexivity].
        apply not_ltb_leb in Hlt; [| assumption ..].
        pose proof (SFltb_leb_trans _ _ _ E Hlt). unfold Float.ltb in *. congruence.
    + injection Hn as <-. destruct Hin as [<- | Hin].
      * apply SFltb_irrefl.
      * rewrite (nearest_none _ _ Hb hit Hin) in Hi. discriminate.
  - destruct Hin as [<- | Hin]; [congruence |]. now apply IH.
Qed.

(** A hit found on one interval is found on another that holds it and
    nothing nearer than it that the first leaves out. *)
Lemma nearest_other_interval scene r1 r2 hit :
  nearest scene r1 = Some hit ->
  in_interval r2 hit = true ->
  (forall h, In h scene -> in_interval r2 h = true ->
     Float.ltb (embree.t hit) (embree.t h) = false -> in_interval r1 h = true) ->
  nearest scene r2 = Some hit.
Proof.
  induction scene as [| h scene IH]; cbn [nearest]; intros H1 H2 Hall;
    [discriminate |].
  assert (Hall' : forall h', In h' scene -> in_interval r2 h' = true ->
            Float.ltb (embree.t hit) (embree.t h') = false ->
            in_interval r1 h' = true)
    by (intros h' Hin; apply Hall; now right).
  assert (Hhead : in_interval r2 h = true ->
            Float.ltb (embree.t hit) (embree.t h) = false ->
            in_interval r1 h = true)
    by (apply Hall; now left).
  pose proof (in_interval_not_nan _ _ H2) as Nhit.
  destruct (in_interval r1 h) eqn:Hh1.
  - destruct (nearest scene r1) as [b |] eqn:Hb.
    + destruct (Float.ltb (embree.t b) (embree.t h)) eqn:Hlt; injection H1 as ->.
      * rewrite (IH eq_refl H2 Hall'), Hlt. now destruct (in_interval r2 h).
      * rewrite H2.
        destruct (nearest scene r2) as [b2 |] eqn:Hb2; [| reflexivity].
        destruct (Float.ltb (embree.t b2) (embree.t hit)) eqn:E; [| reflexivity].
        exfalso.
        pose proof (nearest_in_interval _ _ _ Hb2) as Hi2.
        pose proof (nearest_In _ _ _ Hb2) as Hin2.
        pose proof (Hall' b2 Hin2 Hi2 (SFltb_asym _ _ E)) as Hi1.
        pose proof (nearest_least _ _ _ Hb b2 Hin2 Hi1) as Hle.
        apply not_ltb_leb in Hlt;
          [| exact (in_interval_not_nan _ _ (nearest_in_interval _ _ _ Hb))
           | exact Nhit].
        pose proof (SFltb_leb_trans _ _ _ E Hlt). unfold Float.ltb in *. congruence.
    + injection H1 as ->. rewrite H2.
      destruct (nearest scene r2) as [b2 |] eqn:Hb2; [| reflexivity].
      destruct (Float.ltb (embree.t b2) (embree.t hit)) eqn:E; [| reflexivity].
      exfalso.
      pose proof (nearest_in_interval _ _ _ Hb2) as Hi2.
      pose proof (nearest_In _ _ _ Hb2) as Hin2.
      pose proof (Hall' b2 Hin2 Hi2 (SFltb_asym _ _ E)) as Hi1.
      rewrite (nearest_none _ _ Hb b2 Hin2) in Hi1. discriminate.
  - rewrite (IH H1 H2 Hall').
    destruct (in_interval r2 h) eqn:Hh2; [| reflexivity].
    destruct (Float.ltb (embree.t hit) (embree.t h)) eqn:E; [reflexivity |].
    discriminate (Hhead eq_refl eq_refl).
Qed.

(** X11: over the nearest-hit primitive, a hit that [intersectSegment]
    finds at or beyond the offset 1e-4 of [intersectRay] is the hit that
    [intersectRay] finds for the same origin and direction. *)
Theorem segment_hit_beyond_the_offset scene a ab hit :
  intersectSegment (nearest scene) a ab = Some hit ->
  Float.leb f_1e_4 (embree.t hit) = true ->
  intersectRay (nearest scene) a ab = Some hit.
Proof.
  unfold intersectSegment, intersectRay. intros Hs Hoff.
  pose proof (nearest_in_interval _ _ _ Hs) as Hi.
  unfold in_interval in Hi. cbn [embree.near embree.far] in Hi.
  apply andb_true_iff in Hi as (H0 & H1).
  pose proof (in_interval_not_nan _ _ (nearest_in_interval _ _ _ Hs)) as Nhit.
  apply (nearest_other_interval _ _ _ _ Hs).
  - unfold in_interval. cbn [embree.near embree.far]. rewrite Hoff. cbn [andb].
    apply (SFltb_leb_trans _ _ _ H1). reflexivity.
  - intros h _ Hh Hle. unfold in_interval in *. cbn [embree.near embree.far] in *.
    apply andb_true_iff in Hh as (Hn & Hf).
    assert (Nh : embree.t h <> S754_nan).
    { intros E. rewrite E in Hn. discriminate Hn. }
    apply not_ltb_leb in Hle; [| assumption ..].
    apply andb_true_iff. split.
    + refine (SFleb_trans _ _ _ _ Hn). reflexivity.
    + exact (SFleb_ltb_trans _ _ _ Hle H1).
Qed.

(** ** The cost of a recorded hit *)

Section Again.

Variable scene : list embree.Hit.
Variable FLOAT_EPS : float.
Variables origin direction : RowVector3.

Local Abbreviation o := (toVec3f origin).
Local Abbreviation d := (toVec3f direction).
Local Abbreviation pass := (loop_body (nearest scene) FLOAT_EPS o d).
Local Abbreviation run := (fun fuel => loop (nearest scene) FLOAT_EPS fuel o d).
Local Abbreviation reached := (after_hit FLOAT_EPS).
Local Abbreviation entered := (reachable (nearest scene) FLOAT_EPS o d).

(** The distances of the scene are floats. *)
Hypothesis scene_valid :
  Forall (fun hit => Float.valid (embree.t hit) = true) scene.

Lemma recorded_hit_found_again st hit :
  nearest scene (ray_of o d st) = Some hit ->
  self_hit st hit = false ->
  exists again,
    nearest scene (ray_of o d (reached st hit)) = Some again
    /\ self_hit (reached st hit) again = true
    /\ Float.leb (embree.t hit) (embree.t again) = true
    /\ Float.leb (embree.t again) (embree.t hit) = true.
Proof.
  intros Hq Hs.
  pose proof (nearest_In _ _ _ Hq) as Hin.
  pose proof (nearest_in_interval _ _ _ Hq) as Hi.
  pose proof (in_interval_not_nan _ _ Hi) as Nhit.
  assert (Hv : Float.valid (embree.t hit) = true)
    by (rewrite Forall_forall in scene_valid; now apply scene_valid).
  assert (Hnear : embree.near (ray_of o d (reached st hit)) = embree.t hit).
  { unfold after_hit. rewrite Hs. cbn [ray_of embree.near set_last_id0 record min_t].
    now apply double_to_float_to_double. }
  assert (Hmin : min_t (reached st hit) = float_to_double (embree.t hit)).
  { unfold after_hit. now rewrite Hs. }
  assert (Hi' : in_interval (ray_of o d (reached st hit)) hit = true).
  { unfold in_interval in *. rewrite Hnear.
    apply andb_true_iff in Hi as (_ & Hf). cbn [ray_of embree.far] in *.
    rewrite Hf. unfold Float.leb. now rewrite SFleb_refl. }
  destruct (nearest scene (ray_of o d (reached st hit))) as [again |] eqn:Hq'.
  - exists again.
    pose proof (nearest_in_interval _ _ _ Hq') as Ha.
    pose proof (in_interval_not_nan _ _ Ha) as Nagain.
    pose proof (nearest_least _ _ _ Hq' hit Hin Hi') as Hle.
    apply not_ltb_leb in Hle; [| assumption ..].
    unfold in_interval in Ha. rewrite Hnear in Ha.
    apply andb_true_iff in Ha as (Hge & _).
    repeat split; try assumption.
    unfold self_hit. rewrite Hmin.
    unfold Double.leb. rewrite (float_to_double_eq _ _ Hle Hge).
    apply orb_true_r.
  - rewrite (nearest_none _ _ Hq' hit Hin) in Hi'. discriminate.
Qed.

Lemma after_hit_num_rays st hit :
  num_rays (reached st hit) = num_rays st + 1.
Proof. unfold after_hit. now destruct (self_hit st hit). Qed.

(** Two rays are spent on each recorded hit, but for one just recorded. *)
Lemma entered_two_rays st :
  entered st ->
  2 * Z.of_nat (List.length (hits st)) <= num_rays st
  \/ exists prev hit,
      nearest scene (ray_of o d prev) = Some hit
      /\ self_hit prev hit = false
      /\ st = reached prev hit
      /\ 2 * Z.of_nat (List.length (hits prev)) <= num_rays prev.
Proof.
  induction 1 as [| st st' He IH Hb]; [left; cbn; lia |].
  destruct (continue_reached _ _ _ _ _ _ Hb) as (hit & Hq & ->).
  destruct IH as [IH | (prev & h & Hp & Hs & -> & IH)].
  - destruct (self_hit st hit) eqn:Hs.
    + left. rewrite after_hit_length, after_hit_num_rays, Hs. lia.
    + right. now exists st, hit.
  - left.
    destruct (recorded_hit_found_again _ _ Hp Hs) as (again & Hq' & Hs' & _).
    rewrite Hq in Hq'. injection Hq' as <-.
    rewrite !after_hit_length, !after_hit_num_rays, Hs, Hs'. lia.
Qed.

(** X12: over the nearest-hit primitive, whose interval holds its lower
    end, and a scene whose distances are floats of the format, the ray sent
    after a recorded hit finds a hit at the same distance again, which the
    self-hit test discards: a traversal spends at least two rays on each
    hit it reports, and one more on the final miss (the large-hit return
    saves the last two of these). *)
Theorem two_rays_for_each_hit fuel st result :
  intersectRay_hits (nearest scene) FLOAT_EPS fuel origin direction
  = Some (result, st) ->
  2 * Z.of_nat (List.length (hits st))
  + (if large_hits_warned st then -1 else 1)
  <= num_rays st.
Proof.
  intros Hl.
  destruct (run_entered _ _ _ _ _ _ _ _ (reachable_init _ _ _ _) Hl)
    as (last & He & Hb).
  destruct (entered_pending _ _ _ _ _ He) as (_ & Hw & _).
  assert (Hlast : 2 * Z.of_nat (List.length (hits last)) <= num_rays last).
  { destruct (entered_two_rays _ He) as [H | (prev & h & Hp & Hs & -> & _)];
      [exact H | exfalso].
    destruct (recorded_hit_found_again _ _ Hp Hs) as (again & Hq' & Hs' & _).
    destruct (pending_return _ _ _ _ _ _ _ (entered_pending _ _ _ _ _ He) Hb)
      as [(Hq & _) | (hit & Hq & Hs'' & _)]; congruence. }
  destruct (pending_return _ _ _ _ _ _ _ (entered_pending _ _ _ _ _ He) Hb)
    as [(_ & -> & _) | (hit & _ & Hs & _ & -> & _)].
  - cbn [incr_num_rays large_hits_warned hits num_rays]. rewrite Hw. lia.
  - cbn [warn large_hits_warned hits num_rays].
    rewrite after_hit_length, after_hit_num_rays, Hs. lia.
Qed.

End Again.

(** * The single-hit query and the head of the traversal *)

(** ** The first escape is [FLOAT_EPS] itself *)

Section Shifted.

Variables prec emax : Z.

(** A canonical number written with [k] more binary places rounds to
    itself. *)
Lemma binary_round_aux_shifted s m k e :
  fexp prec emax (Zpos (digits2_pos m) + e) = e ->
  e <= emax - prec ->
  binary_round_aux prec emax s (Zpos (Pos.iter xO m k)) (e - Zpos k) loc_Exact
  = S754_finite s m e.
Proof.
  intros Hc He.
  assert (Hdig : Zpos (digits2_pos (Pos.iter xO m k)) = Zpos (digits2_pos m) + Zpos k).
  { change (Zdigits2 (Zpos (Pos.iter xO m k)) = Zdigits2 (Zpos m) + Zpos k).
    rewrite iter_xO_pow2, Zdigits2_mul by lia. reflexivity. }
  unfold binary_round_aux, shr_fexp. cbn [Zdigits2 shr_record_of_loc].
  rewrite Hdig.
  replace (Zpos (digits2_pos m) + Zpos k + (e - Zpos k))
    with (Zpos (digits2_pos m) + e) by lia.
  rewrite Hc.
  replace (e - (e - Zpos k)) with (Zpos k) by lia.
  cbn [shr]. rewrite shr_exact.
  cbn [shr_m loc_of_shr_record round_nearest_even Zdigits2 shr_record_of_loc].
  replace (e - Zpos k + Zpos k) with e by lia.
  rewrite Hc, Z.sub_diag. cbn [shr shr_m].
  now destruct (Z.leb_spec e (emax - prec)); [| lia].
Qed.

End Shifted.

Lemma mul_pow2_0 m e :
  bounded Double.prec Double.emax m e = true ->
  Double.mul (pow2 0) (S754_finite false m e) = S754_finite false m e.
Proof.
  intros Hb. pose proof Hb as Hb'.
  apply bounded_canonical in Hb as (Hc & _).
  unfold bounded in Hb'. apply andb_true_iff in Hb' as (_ & Hmax).
  apply Z.leb_le in Hmax.
  change (pow2 0) with (S754_finite false 4503599627370496 (-52)).
  unfold Double.mul, SFmul. cbn [xorb].
  change (4503599627370496 * m)%positive with (Pos.iter xO m 52).
  replace (-52 + e) with (e - 52) by lia.
  now apply binary_round_aux_shifted.
Qed.

Lemma first_escape x :
  Float.valid x = true -> Float.ltb embree.zero x = true ->
  Double.add embree.zero (Double.mul (pow2 0) (float_to_double x))
  = float_to_double x.
Proof.
  intros Hv Hx. pose proof (float_to_double_valid x) as Hd.
  destruct (float_to_double_positive x Hv Hx) as [-> | (m & e & E)];
    [reflexivity |].
  rewrite E in *. rewrite mul_pow2_0 by exact Hd. reflexivity.
Qed.

(** ** The promotion keeps the order of positive floats *)

Lemma SFltb_not_leb x y : SFltb x y = true -> SFleb y x = false.
Proof.
  intros H. destruct (SFleb y x) eqn:H'; [| reflexivity].
  keys. cbn in *. lia.
Qed.

Lemma float_to_double_lt x y :
  Float.valid x = true -> Float.valid y = true ->
  Float.ltb embree.zero x = true -> Float.ltb x y = true ->
  Double.ltb (float_to_double x) (float_to_double y) = true.
Proof.
  intros Vx Vy Hx Hlt.
  destruct (positive_float_cases x Hx) as [-> | (m & e & ->)].
  { destruct y as [s | [] | | [] m' e']; discriminate. }
  destruct y as [s | [] | | [] m' e']; try discriminate.
  - cbn [Float.valid valid_binary] in Vx.
    destruct (float_to_double_exact false m e Vx) as (-> & _). reflexivity.
  - cbn [Float.valid valid_binary] in Vx, Vy.
    destruct (float_to_double_exact false m e Vx) as (-> & Hk).
    destruct (float_to_double_exact false m' e' Vy) as (-> & Hk').
    apply bounded_canonical in Vx as (Hc & _), Vy as (Hc' & _).
    unfold fexp, emin, Float.prec, Float.emax in Hc, Hc'.
    unfold Float.ltb in Hlt. apply SFltb_key in Hlt as (a & b & Ha & Hb & Hlt).
    cbn [key] in Ha, Hb. injection Ha as <-. injection Hb as <-.
    cbn [key_lt] in Hlt.
    apply SFltb_key. do 2 eexists. split; [reflexivity |]. split; [reflexivity |].
    cbn [key_lt].
    set (D := Zpos (digits2_pos m)) in *. set (D' := Zpos (digits2_pos m')) in *.
    assert (HD : 0 < D) by (subst D; lia).
    assert (HD' : 0 < D') by (subst D'; lia).
    right. split; [reflexivity |].
    destruct Hlt as [Hlt | (_ & [Hlt | (He & Hm)])]; [lia | left; lia |].
    assert (Hdd : D <= D').
    { subst D D'. change (Zdigits2 (Zpos m) <= Zdigits2 (Zpos m')).
      apply Zdigits2_mono; lia. }
    destruct (Z.eq_dec D D') as [Heq | Hne]; [| left; lia].
    right. split; [lia |].
    rewrite !iter_xO_pow2. rewrite !Z2Pos.id by lia. rewrite <- Heq.
    apply Z.mul_lt_mono_pos_r; [apply Z.pow_pos_nonneg; lia | exact Hm].
Qed.

(** ** The first hit of the traversal *)

Section SingleAndMulti.

Variable scene : list embree.Hit.
Variable FLOAT_EPS : float.
Variables origin direction : RowVector3.

Local Abbreviation o := (toVec3f origin).
Local Abbreviation d := (toVec3f direction).
Local Abbreviation pass := (loop_body (nearest scene) FLOAT_EPS o d).
Local Abbreviation run := (fun fuel => loop (nearest scene) FLOAT_EPS fuel o d).
Local Abbreviation reached := (after_hit FLOAT_EPS).

(** The distances of the scene are floats. *)
Hypothesis scene_valid :
  Forall (fun hit => Float.valid (embree.t hit) = true) scene.

(** No triangle is struck at [0 < t < 1e-4f]. *)
Hypothesis none_below_the_offset :
  Forall (fun hit =>
            Float.ltb embree.zero (embree.t hit) = true ->
            Float.leb f_1e_4 (embree.t hit) = true)
    scene.

(** No triangle carries the id -1, the initial [last_id0]. *)
Hypothesis no_id_minus_one :
  Forall (fun hit => embree.id0 hit <> -1) scene.

(** A triangle through the origin of the ray is not struck again further
    along the ray. *)
Hypothesis origin_triangle_once :
  forall hit hit',
    In hit scene -> In hit' scene ->
    Float.leb (embree.t hit) embree.zero = true ->
    Float.ltb embree.zero (embree.t hit') = true ->
    embree.id0 hit <> embree.id0 hit'.

(** [FLOAT_EPS] is a positive float below the offset 1e-4f. *)
Hypothesis FLOAT_EPS_valid : Float.valid FLOAT_EPS = true.
Hypothesis FLOAT_EPS_positive : Float.ltb embree.zero FLOAT_EPS = true.
Hypothesis FLOAT_EPS_below : Float.ltb FLOAT_EPS f_1e_4 = true.

(** A hit found from a bound that is not above the offset, at a positive
    distance, is the hit of the single-hit query. *)
Lemma found_from_below near hit :
  Float.leb near f_1e_4 = true ->
  nearest scene {| embree.org := o; embree.dir := d;
                   embree.near := near; embree.far := embree.inf |}
  = Some hit ->
  Float.ltb embree.zero (embree.t hit) = true ->
  intersectRay (nearest scene) origin direction = Some hit.
Proof.
  intros Hnear Hq Hpos. unfold intersectRay.
  pose proof (nearest_In _ _ _ Hq) as Hin.
  pose proof (nearest_in_interval _ _ _ Hq) as Hi.
  unfold in_interval in Hi. cbn [embree.near embree.far] in Hi.
  apply andb_true_iff in Hi as (_ & Hfar).
  rewrite Forall_forall in none_below_the_offset.
  apply (nearest_other_interval _ _ _ _ Hq).
  - unfold in_interval. cbn [embree.near embree.far].
    now rewrite (none_below_the_offset _ Hin Hpos), Hfar.
  - intros h _ Hh _. unfold in_interval in *. cbn [embree.near embree.far] in *.
    apply andb_true_iff in Hh as (Hn & Hf). rewrite Hf, andb_true_r.
    exact (SFleb_trans _ _ _ Hnear Hn).
Qed.

(** Where nothing is found from a bound that is not above the offset, the
    single-hit query finds nothing. *)
Lemma missed_from_below near :
  Float.leb near f_1e_4 = true ->
  nearest scene {| embree.org := o; embree.dir := d;
                   embree.near := near; embree.far := embree.inf |}
  = None ->
  intersectRay (nearest scene) origin direction = None.
Proof.
  intros Hnear Hq.
  destruct (intersectRay (nearest scene) origin direction) as [hit |] eqn:Hs;
    [exfalso | reflexivity].
  unfold intersectRay in Hs.
  pose proof (nearest_In _ _ _ Hs) as Hin.
  pose proof (nearest_in_interval _ _ _ Hs) as Hi.
  pose proof (nearest_none _ _ Hq hit Hin) as Hout.
  unfold in_interval in *. cbn [embree.near embree.far] in *.
  apply andb_true_iff in Hi as (Hn & Hf).
  rewrite Hf, andb_true_r in Hout. unfold Float.leb in *.
  rewrite (SFleb_trans _ _ _ Hnear Hn) in Hout. discriminate.
Qed.

(** A hit at a positive distance is beyond the bound 0. *)
Lemma positive_beyond_zero hit :
  In hit scene -> Float.ltb embree.zero (embree.t hit) = true ->
  Double.leb (float_to_double (embree.t hit)) embree.zero = false.
Proof.
  intros Hin Hpos. rewrite Forall_forall in scene_valid.
  now destruct (float_to_double_positive _ (scene_valid _ Hin) Hpos)
    as [-> | (m & e & ->)].
Qed.

(** The traversal that records [hit] in the state [st] with no hits returns
    it first. *)
Lemma recorded_first fuel st hit result final :
  hits st = [] -> nearest scene (ray_of o d st) = Some hit ->
  self_hit st hit = false ->
  run fuel st = Some (result, final) ->
  exists rest, hits final = hit :: rest.
Proof.
  intros Hnil Hq Hs Hl.
  destruct fuel as [| fuel]; [discriminate |]. cbn [loop] in Hl.
  pose proof (pass_extends_hits (nearest scene) FLOAT_EPS origin direction st)
    as (r1 & Hr1).
  destruct (state_of_hit _ FLOAT_EPS _ _ _ _ Hq) as (Hh & _).
  rewrite Hh, (after_hit_hits_record _ _ _ Hs), Hnil in Hr1. cbn [app] in Hr1.
  subst r1. rewrite (after_hit_hits_record _ _ _ Hs), Hnil in Hh. cbn [app] in Hh.
  destruct (pass st) as [st1 | b1 st1] eqn:Hb; cbn [state_of] in Hh.
  - destruct (run_extends_hits _ _ _ _ _ _ _ _ Hl) as (rest & Hrest).
    rewrite Hh in Hrest. now exists rest.
  - injection Hl as <- <-. now exists [].
Qed.

(** C3, amended: over the nearest-hit primitive, the single-hit
    [intersectRay] queries from [near = 1e-4f] and the multi-hit one from
    [near = 0], then, when the origin lies on a triangle, from
    [near = FLOAT_EPS].  When the distances it reports are floats of the
    format, no triangle is struck at [0 < t < 1e-4f], no triangle carries
    the id -1, a triangle through the origin is not struck again further
    along the ray, and [FLOAT_EPS] is a positive float below 1e-4f, the
    multi-hit [intersectRay] returns, the single-hit one returns a hit if
    and only if the multi-hit one returns a non-empty sequence, and its hit
    is the first element of that sequence. *)
Theorem C3_single_hit_heads_all_hits :
  (exists result st,
      intersectRay_hits (nearest scene) FLOAT_EPS max_rays origin direction
      = Some (result, st))
  /\ forall fuel result st,
      intersectRay_hits (nearest scene) FLOAT_EPS fuel origin direction
      = Some (result, st) ->
      (intersectRay (nearest scene) origin direction <> None
       <-> hits st <> [])
      /\ (forall hit,
            intersectRay (nearest scene) origin direction = Some hit ->
            exists rest, hits st = hit :: rest).
Proof.
  split.
  - destruct (run_terminates (nearest scene) FLOAT_EPS origin direction
                (nearest_in_interval scene) FLOAT_EPS_positive
                max_rays init pending_init) as (b & st & Hr & _).
    + intros H. cbn in H. lia.
    + unfold passes_left, max_rays.
      cbn [hits self_hits init List.length N.to_nat]. lia.
    + now exists b, st.
  - intros fuel result st Hl. unfold intersectRay_hits in Hl.
    assert (Hfirst : forall hit,
              (exists rest, hits st = hit :: rest) ->
              intersectRay (nearest scene) origin direction = Some hit ->
              (intersectRay (nearest scene) origin direction <> None
               <-> hits st <> [])
              /\ (forall hit',
                    intersectRay (nearest scene) origin direction = Some hit' ->
                    exists rest, hits st = hit' :: rest)).
    { intros hit (rest & Hh) Hsingle. rewrite Hsingle, Hh. split.
      - split; intros _; discriminate.
      - intros hit' [= <-]. now exists rest. }
    assert (Hnone :
              hits st = [] ->
              intersectRay (nearest scene) origin direction = None ->
              (intersectRay (nearest scene) origin direction <> None
               <-> hits st <> [])
              /\ (forall hit',
                    intersectRay (nearest scene) origin direction = Some hit' ->
                    exists rest, hits st = hit' :: rest)).
    { intros Hh Hsingle. rewrite Hsingle, Hh. split.
      - split; intros H; now elim H.
      - discriminate. }
    assert (Hzero : Float.leb embree.zero f_1e_4 = true) by reflexivity.
    destruct (nearest scene (ray_of o d init)) as [first |] eqn:Hq.
    + pose proof (nearest_In _ _ _ Hq) as Hin.
      pose proof (nearest_in_interval _ _ _ Hq) as Hi.
      destruct (Float.ltb embree.zero (embree.t first)) eqn:Hpos.
      * assert (Hs : self_hit init first = false).
        { unfold self_hit. cbn [last_id0 min_t init].
          rewrite (positive_beyond_zero _ Hin Hpos), orb_false_r.
          rewrite Forall_forall in no_id_minus_one.
          apply Z.eqb_neq. now apply no_id_minus_one. }
        apply (Hfirst first).
        -- exact (recorded_first fuel init first result st eq_refl Hq Hs Hl).
        -- exact (found_from_below _ _ Hzero Hq Hpos).
      * assert (Hle : Float.leb (embree.t first) embree.zero = true).
        { apply not_ltb_leb; [discriminate | | exact Hpos].
          exact (in_interval_not_nan _ _ Hi). }
        assert (Hge : Float.leb embree.zero (embree.t first) = true).
        { unfold in_interval in Hi. now apply andb_true_iff in Hi as (Hge & _). }
        assert (Hs : self_hit init first = true).
        { unfold self_hit. cbn [last_id0 min_t init].
          change embree.zero with (float_to_double embree.zero) at 1.
          unfold Double.leb. rewrite (float_to_double_eq _ _ Hle Hge).
          apply orb_true_r. }
        destruct fuel as [| fuel]; [discriminate |]. cbn [loop] in Hl.
        rewrite (loop_body_hit _ _ _ _ _ _ Hq) in Hl.
        set (st1 := reached init first) in *.
        assert (Hh1 : hits st1 = [])
          by (subst st1; now rewrite after_hit_hits_self).
        assert (Hm1 : min_t st1 = float_to_double FLOAT_EPS).
        { subst st1. unfold after_hit. rewrite Hs.
          cbn [set_last_id0 advance min_t incr_num_rays self_hits init].
          unfold t_push. cbn [self_hits init incr_num_rays]. unfold eps.
          now apply first_escape. }
        assert (Hl1 : last_id0 st1 = embree.id0 first) by reflexivity.
        rewrite Hh1 in Hl. cbn [List.length Nat.ltb Nat.leb andb] in Hl.
        assert (Hr1 : ray_of o d st1
                      = {| embree.org := o; embree.dir := d;
                           embree.near := FLOAT_EPS; embree.far := embree.inf |}).
        { unfold ray_of. rewrite Hm1.
          now rewrite (double_to_float_to_double _ FLOAT_EPS_valid). }
        destruct (nearest scene (ray_of o d st1)) as [second |] eqn:Hq1.
        -- pose proof (nearest_In _ _ _ Hq1) as Hin1.
           pose proof (nearest_in_interval _ _ _ Hq1) as Hi1.
           rewrite Hr1 in Hi1. unfold in_interval in Hi1.
           cbn [embree.near embree.far] in Hi1.
           apply andb_true_iff in Hi1 as (Hn1 & _).
           assert (Hpos1 : Float.ltb embree.zero (embree.t second) = true)
             by exact (SFltb_leb_trans _ _ _ FLOAT_EPS_positive Hn1).
           assert (Hs1 : self_hit st1 second = false).
           { unfold self_hit. rewrite Hl1, Hm1. apply orb_false_iff. split.
             - apply Z.eqb_neq. intros E. symmetry in E. revert E.
               now apply origin_triangle_once.
             - apply SFltb_not_leb.
               rewrite Forall_forall in scene_valid, none_below_the_offset.
               apply float_to_double_lt;
                 [assumption | now apply scene_valid | assumption |].
               apply (SFltb_leb_trans _ _ _ FLOAT_EPS_below).
               now apply none_below_the_offset. }
           apply (Hfirst second).
           ++ exact (recorded_first _ _ _ _ _ Hh1 Hq1 Hs1 Hl).
           ++ rewrite Hr1 in Hq1.
              exact (found_from_below _ _ (SFltb_leb _ _ FLOAT_EPS_below) Hq1 Hpos1).
        -- destruct fuel as [| fuel]; [discriminate |]. cbn [loop] in Hl.
           rewrite (loop_body_miss _ _ _ _ _ Hq1) in Hl.
           injection Hl as <- <-. apply Hnone.
           ++ exact Hh1.
           ++ rewrite Hr1 in Hq1.
              exact (missed_from_below _ (SFltb_leb _ _ FLOAT_EPS_below) Hq1).
    + destruct fuel as [| fuel]; [discriminate |]. cbn [loop] in Hl.
      rewrite (loop_body_miss _ _ _ _ _ Hq) in Hl. injection Hl as <- <-.
      apply Hnone; [reflexivity |].
      exact (missed_from_below _ Hzero Hq).
Qed.

End SingleAndMulti.

(** The amended C3 on a ray whose origin lies on a triangle, with another
    triangle at t = 5: the first ray of the traversal meets the triangle at
    the origin, the second starts at [FLOAT_EPS]. *)
Lemma C3_witness :
  (exists result st,
      intersectRay_hits (nearest scene_touching) FLOAT_EPS_default max_rays
        origin_above direction_down
      = Some (result, st))
  /\ forall fuel result st,
      intersectRay_hits (nearest scene_touching) FLOAT_EPS_default fuel
        origin_above direction_down
      = Some (result, st) ->
      (intersectRay (nearest scene_touching) origin_above direction_down <> None
       <-> hits st <> [])
      /\ (forall hit,
            intersectRay (nearest scene_touching) origin_above direction_down
            = Some hit ->
            exists rest, hits st = hit :: rest).
Proof.
  apply (C3_single_hit_heads_all_hits scene_touching FLOAT_EPS_default
           origin_above direction_down).
  - repeat constructor.
  - repeat constructor; vm_compute; intros; congruence.
  - repeat constructor; discriminate.
  - intros hit hit' [<- | [<- | []]] [<- | [<- | []]];
      vm_compute; intros; congruence.
  - vm_compute. reflexivity.
  - vm_compute. reflexivity.
  - vm_compute. reflexivity.
Defined.

(** Each condition of the amended C3 is needed.  With a triangle of id -1,
    with one triangle reported at the origin and again at t = 5, and with
    an escape of 1 in place of [FLOAT_EPS] before a triangle at t = 1/2,
    the single-hit query returns a hit and the traversal returns none. *)
Lemma single_hit_conditions_needed :
  (intersectRay (nearest [hit_at (-1) (Float.of_Z 5)])
     origin_above direction_down
   = Some (hit_at (-1) (Float.of_Z 5))
   /\ exists st,
       intersectRay_hits (nearest [hit_at (-1) (Float.of_Z 5)])
         FLOAT_EPS_default 27 origin_above direction_down
       = Some (true, st)
       /\ hits st = [])
  /\ (intersectRay (nearest [hit_at 0 embree.zero; hit_at 0 (Float.of_Z 5)])
        origin_above direction_down
      = Some (hit_at 0 (Float.of_Z 5))
      /\ exists st,
          intersectRay_hits
            (nearest [hit_at 0 embree.zero; hit_at 0 (Float.of_Z 5)])
            FLOAT_EPS_default 27 origin_above direction_down
          = Some (true, st)
          /\ hits st = [])
  /\ (intersectRay
        (nearest [hit_at 1 embree.zero;
                  hit_at 0 (Float.div (Float.of_Z 1) (Float.of_Z 2))])
        origin_above direction_down
      = Some (hit_at 0 (Float.div (Float.of_Z 1) (Float.of_Z 2)))
      /\ exists st,
          intersectRay_hits
            (nearest [hit_at 1 embree.zero;
                      hit_at 0 (Float.div (Float.of_Z 1) (Float.of_Z 2))])
            (Float.of_Z 1) 2 origin_above direction_down
          = Some (true, st)
          /\ hits st = []).
Proof.
  repeat split; try (vm_compute; reflexivity);
    eexists; split; vm_compute; reflexivity.
Qed.

(** ** Instances *)

(** X4 on the unit square, over the stack structure. *)
Lemma hit_ids_are_rows_of_F_witness :
  exists intersect,
    constructed stack_accel square_V square_F = Some intersect
    /\ (forall origin direction hit,
          intersectRay intersect origin direction = Some hit ->
          0 <= embree.id0 hit < Z.of_nat (List.length square_F))
    /\ (forall a ab hit,
          intersectSegment intersect a ab = Some hit ->
          0 <= embree.id0 hit < Z.of_nat (List.length square_F))
    /\ (forall FLOAT_EPS fuel origin direction result st,
          intersectRay_hits intersect FLOAT_EPS fuel origin direction
          = Some (result, st) ->
          Forall (fun hit =>
                    0 <= embree.id0 hit < Z.of_nat (List.length square_F)
                    /\ embree.id0 hit <> last_id0 init)
            (hits st)).
Proof.
  exact (hit_ids_are_rows_of_F stack_accel stack_accel_hit square_V square_F).
Defined.

(** X5 on the corners of the unit square with no face. *)
Lemma empty_mesh_misses_witness :
  exists intersect,
    constructed stack_accel square_V [] = Some intersect
    /\ (forall origin direction,
          intersectRay intersect origin direction = None)
    /\ (forall a ab, intersectSegment intersect a ab = None)
    /\ (forall FLOAT_EPS fuel origin direction,
          (0 < fuel)%nat ->
          exists st,
            intersectRay_hits intersect FLOAT_EPS fuel origin direction
            = Some (true, st)
            /\ hits st = [] /\ num_rays st = 1).
Proof.
  exact (empty_mesh_misses stack_accel stack_accel_hit square_V).
Defined.

(** X6 on the planes of the spec's scenario: ten rays, three hits. *)
Lemma num_rays_counts_the_queries_witness :
  1 <= num_rays planes_final <= Z.of_nat 10
  /\ intersectRay_hits (nearest scene_planes) FLOAT_EPS_default
       (Z.to_nat (num_rays planes_final)) origin_above direction_down
     = Some (false, planes_final)
  /\ (forall less,
        Z.of_nat less < num_rays planes_final ->
        intersectRay_hits (nearest scene_planes) FLOAT_EPS_default less
          origin_above direction_down
        = None)
  /\ Z.of_nat (List.length (hits planes_final))
     + (if large_hits_warned planes_final then 0 else 1)
     <= num_rays planes_final.
Proof.
  apply (num_rays_counts_the_queries (nearest scene_planes) FLOAT_EPS_default
           origin_above direction_down 10 planes_final false).
  vm_compute. reflexivity.
Defined.

(** X7 on the planes of the spec's scenario. *)
Lemma hits_are_answers_and_last_ray_missed_witness :
  Forall (answered (nearest scene_planes)
            (toVec3f origin_above) (toVec3f direction_down))
    (hits planes_final)
  /\ (large_hits_warned planes_final = false ->
      nearest scene_planes
        {| embree.org := toVec3f origin_above;
           embree.dir := toVec3f direction_down;
           embree.near := double_to_float (min_t planes_final);
           embree.far := embree.inf |}
      = None).
Proof.
  apply (hits_are_answers_and_last_ray_missed (nearest scene_planes)
           FLOAT_EPS_default origin_above direction_down 10 planes_final false).
  vm_compute. reflexivity.
Defined.

(** X8 on the planes of the spec's scenario. *)
Lemma hits_lie_ahead_of_the_origin_witness :
  Forall (fun hit =>
            Float.ltb embree.zero (embree.t hit) = true
            /\ Float.ltb (embree.t hit) embree.inf = true
            /\ Double.leb (float_to_double (embree.t hit)) (min_t planes_final)
               = true)
    (hits planes_final).
Proof.
  apply (hits_lie_ahead_of_the_origin (nearest scene_planes) FLOAT_EPS_default
           origin_above direction_down
           (nearest_in_interval scene_planes)
           ltac:(vm_compute; reflexivity) ltac:(vm_compute; reflexivity)
           10 planes_final false).
  vm_compute. reflexivity.
Defined.

(** X9 on the first pass over the planes, which records the plane at
    t = 3. *)
Lemma next_ray_starts_at_the_hit_witness :
  embree.near
    (ray_of (toVec3f origin_above) (toVec3f direction_down)
       (state_of (loop_body (nearest scene_planes) FLOAT_EPS_default
                    (toVec3f origin_above) (toVec3f direction_down) init)))
  = embree.t (hit_at 4 (Float.of_Z 3)).
Proof.
  apply (next_ray_starts_at_the_hit (nearest scene_planes) FLOAT_EPS_default
           (toVec3f origin_above) (toVec3f direction_down) init
           (hit_at 4 (Float.of_Z 3)));
    vm_compute; reflexivity.
Defined.

(** X10 on the point (1e-4, 1, 1e-7). *)
Lemma toVec3f_of_floats_witness :
  toVec3f {| p0 := float_to_double f_1e_4;
             p1 := float_to_double embree.one;
             p2 := float_to_double FLOAT_EPS_default |}
  = {| embree.x := f_1e_4; embree.y := embree.one;
       embree.z := FLOAT_EPS_default |}.
Proof.
  apply (toVec3f_of_floats f_1e_4 embree.one FLOAT_EPS_default);
    vm_compute; reflexivity.
Defined.

(** X11 on the row of triangles, the first of which is struck at
    t = 1/2048. *)
Lemma segment_hit_beyond_the_offset_witness :
  intersectRay (nearest scene_many) origin_above direction_down
  = Some (hit_at 0 (Float.div (Float.of_Z 1) (Float.of_Z 2048))).
Proof.
  apply (segment_hit_beyond_the_offset scene_many origin_above direction_down
           (hit_at 0 (Float.div (Float.of_Z 1) (Float.of_Z 2048))));
    vm_compute; reflexivity.
Defined.

(** X12 on the planes of the spec's scenario: three hits, ten rays. *)
Lemma two_rays_for_each_hit_witness :
  2 * Z.of_nat (List.length (hits planes_final))
  + (if large_hits_warned planes_final then -1 else 1)
  <= num_rays planes_final.
Proof.
  apply (two_rays_for_each_hit scene_planes FLOAT_EPS_default
           origin_above direction_down
           ltac:(repeat constructor) 10 planes_final false).
  vm_compute. reflexivity.
Defined.
